(** * CodeGraphX: connection pool, retry loops and request batcher

    A shallow embedding of the resource-management layer of the repository:

    - [src/modules/exceptions.py]   the exception classes,
    - [src/modules/metrics.py]      the counters,
    - [src/database/connection.py]  [DatabasePool],
    - [src/modules/base.py]         [AsyncHTTPClient] and [RequestBatcher],
    - [src/modules/repository.py]   [RepositoryManager].

    Python objects are modelled by records, [set]s by [gset], [dict]s by
    [gmap], [asyncio.Queue] by a FIFO list, [int] by [Z] and the [float]
    delays by exact rationals [Q].  Coroutines are modelled by functions on
    an explicit state; where the interleaving of tasks matters a small-step
    scheduler is given. *)

From Stdlib Require Import ZArith QArith Qminmax List String Lia.
From stdpp Require Import base gmap sets list strings pretty.

(* ===================================================================== *)
(** * Exceptions ([src/modules/exceptions.py], plus the built-in and
      [httpx] classes the modelled code raises or catches) *)
(* ===================================================================== *)

Module Exceptions.

(** The class of an exception object, [e.__class__]. *)
Inductive exn_class : Type :=
  | BaseError_cls
  | APIError_cls
  | DatabaseError_cls
  | ValidationError_cls
  | RateLimitError_cls
  | AuthenticationError_cls
  (* built-in *)
  | TypeError_cls
  | AttributeError_cls
  | KeyError_cls
  (* httpx *)
  | httpx_TransportError_cls      (* network errors and timeouts *)
  | httpx_HTTPStatusError_cls     (* raised by [response.raise_for_status()] *)
  | httpx_InvalidURL_cls.         (* an httpx exception that is no HTTPError *)

#[global] Instance exn_class_eq_dec : EqDecision exn_class.
Proof. solve_decision. Defined.

(** [BaseError.__init__] stores [message], [code], [status_code] and
    [details]; [timestamp] and [trace_id] come from the clock and from
    [uuid4()] and are left out.  Built-in and httpx exceptions have neither
    [code] nor [status_code]. *)
Record exn : Type := mk_exn {
  cls : exn_class;
  message : string;
  code : option string;
  status_code : option Z;
}.

#[global] Instance exn_eq_dec : EqDecision exn.
Proof. solve_decision. Defined.

(** [http.HTTPStatus] *)
Definition INTERNAL_SERVER_ERROR : Z := 500.
Definition BAD_GATEWAY : Z := 502.
Definition SERVICE_UNAVAILABLE : Z := 503.
Definition TOO_MANY_REQUESTS : Z := 429.
Definition UNAUTHORIZED : Z := 401.

Definition APIError (m : string) : exn :=
  mk_exn APIError_cls m None (Some BAD_GATEWAY).

Definition DatabaseError (m : string) : exn :=
  mk_exn DatabaseError_cls m None (Some SERVICE_UNAVAILABLE).


Definition RateLimitError (m : string) : exn :=
  mk_exn RateLimitError_cls m (Some "RATE_LIMIT_EXCEEDED") (Some TOO_MANY_REQUESTS).

Definition AuthenticationError (m : string) : exn :=
  mk_exn AuthenticationError_cls m (Some "AUTHENTICATION_ERROR") (Some UNAUTHORIZED).

Definition TypeError (m : string) : exn := mk_exn TypeError_cls m None None.
Definition AttributeError (m : string) : exn := mk_exn AttributeError_cls m None None.

(** [str(e)]: [BaseError.__init__] passes [message] to [Exception.__init__]. *)
Definition str (e : exn) : string := message e.

(** [isinstance(e, httpx.HTTPError)] *)
Definition is_HTTPError (e : exn) : bool :=
  match cls e with
  | httpx_TransportError_cls | httpx_HTTPStatusError_cls => true
  | _ => false
  end.

(** The outcome of a call that returns or raises. *)
Inductive result (A : Type) : Type :=
  | Ok (a : A)
  | Raise (e : exn).
Arguments Ok {A} a.
Arguments Raise {A} e.

End Exceptions.
Export Exceptions.

(* ===================================================================== *)
(** * Metrics ([src/modules/metrics.py]) *)
(* ===================================================================== *)

Module Metrics.

(** [self.counters[metric] += value] on a [defaultdict(int)] *)
Definition increment (metric : string) (value : Z) (counters : gmap string Z)
  : gmap string Z :=
  <[metric := (default 0%Z (counters !! metric) + value)%Z]> counters.

End Metrics.

(* ===================================================================== *)
(** * DatabasePool ([src/database/connection.py]) *)
(* ===================================================================== *)

Module Pool.

(** A [sqlite3.Connection] object, named by its allocation number. *)
Abbreviation conn := nat (only parsing).

(** The pool object, together with the part of the heap it acts on:
    [closed] holds the connections whose [close()] has run and [next_conn]
    is the next connection object [sqlite3.connect] will allocate. *)
Record PoolState : Type := mk_pool {
  max_connections : Z;
  timeout : Z;
  _connection_queue : list conn;        (* asyncio.Queue(maxsize=max_connections), head first *)
  _active_connections : gset conn;      (* Set[sqlite3.Connection] *)
  _metrics : gmap string Z;             (* self._metrics *)
  metrics : gmap string Z;              (* self.metrics.counters *)
  closed : gset conn;
  next_conn : conn;
}.

Definition set_queue (q : list conn) (s : PoolState) : PoolState :=
  mk_pool (max_connections s) (timeout s) q (_active_connections s)
          (_metrics s) (metrics s) (closed s) (next_conn s).

Definition set_active (a : gset conn) (s : PoolState) : PoolState :=
  mk_pool (max_connections s) (timeout s) (_connection_queue s) a
          (_metrics s) (metrics s) (closed s) (next_conn s).

Definition set__metrics (m : gmap string Z) (s : PoolState) : PoolState :=
  mk_pool (max_connections s) (timeout s) (_connection_queue s) (_active_connections s)
          m (metrics s) (closed s) (next_conn s).

Definition set_metrics (m : gmap string Z) (s : PoolState) : PoolState :=
  mk_pool (max_connections s) (timeout s) (_connection_queue s) (_active_connections s)
          (_metrics s) m (closed s) (next_conn s).

Definition set_closed (cl : gset conn) (s : PoolState) : PoolState :=
  mk_pool (max_connections s) (timeout s) (_connection_queue s) (_active_connections s)
          (_metrics s) (metrics s) cl (next_conn s).

Definition set_next_conn (n : conn) (s : PoolState) : PoolState :=
  mk_pool (max_connections s) (timeout s) (_connection_queue s) (_active_connections s)
          (_metrics s) (metrics s) (closed s) n.

(** [DatabasePool.__init__] *)
Definition __init__ (max_connections timeout : Z) : PoolState :=
  {| max_connections := max_connections;
     timeout := timeout;
     _connection_queue := [];
     _active_connections := ∅;
     _metrics := {[ "total_connections" := 0%Z; "active_connections" := 0%Z;
                    "connection_errors" := 0%Z; "timeouts" := 0%Z ]};
     metrics := ∅;
     closed := ∅;
     next_conn := 0 |}.

(** The global instance: [pool = DatabasePool(str(settings.DATABASE_PATH))],
    with the defaults [max_connections = 5] and [timeout = 30]. *)
Definition pool : PoolState := __init__ 5 30.

(** [await self.metrics.increment(name)] *)
Definition metrics_increment (name : string) (s : PoolState) : PoolState :=
  set_metrics (Metrics.increment name 1 (metrics s)) s.

(** [self._metrics[name] += 1] *)
Definition _metrics_bump (name : string) (s : PoolState) : PoolState :=
  set__metrics (Metrics.increment name 1 (_metrics s)) s.

(** What the outside world answers during one call: whether the liveness
    probe [SELECT 1] succeeds on a connection, and whether
    [sqlite3.connect] fails (with the message of the [sqlite3.Error]). *)
Record Env : Type := mk_env {
  probe_ok : conn → bool;
  connect_error : option string;
}.

(** [_create_connection] *)
Definition _create_connection (env : Env) (s : PoolState) : PoolState * result conn :=
  match connect_error env with
  | None => (set_next_conn (S (next_conn s)) s, Ok (next_conn s))
  | Some m => (s, Raise (DatabaseError ("Failed to create connection: " ++ m)))
  end.

(** [_validate_connection_sync]: any [sqlite3.Error] gives [False]; a closed
    connection raises [sqlite3.ProgrammingError], which is one. *)
Definition _validate_connection_sync (env : Env) (s : PoolState) (c : conn) : bool :=
  if decide (c ∈ closed s) then false else probe_ok env c.

(** [_close_connection]: [conn.close()], then
    [self._active_connections.discard(conn)]. *)
Definition _close_connection (c : conn) (s : PoolState) : PoolState :=
  set_active (_active_connections s ∖ {[c]}) (set_closed ({[c]} ∪ closed s) s).

(** [await asyncio.wait_for(self._connection_queue.get(), timeout=self.timeout)]
    as it runs inside [async with self._lock].  A non-empty queue gives its
    head at once.  On an empty queue the task waits; every producer
    ([return_connection]) needs the lock this task holds, so the wait ends
    with [asyncio.TimeoutError] ([None] here).  With [timeout <= 0] the
    inner [get()] is cancelled before it starts. *)
Definition wait_for_queue_get (s : PoolState) : option (conn * PoolState) :=
  if (timeout s <=? 0)%Z then None
  else match _connection_queue s with
       | [] => None
       | c :: q => Some (c, set_queue q s)
       end.

(** Lines 84-92: create a new connection if under the limit. *)
Definition create_if_under_limit (env : Env) (s : PoolState) : PoolState * result conn :=
  if (Z.of_nat (size (_active_connections s)) <? max_connections s)%Z then
    match _create_connection env s with
    | (s1, Ok c) =>
        let s2 := set_active ({[c]} ∪ _active_connections s1) s1 in
        let s3 := _metrics_bump "total_connections" s2 in
        (metrics_increment "connection_success" s3, Ok c)
    | (s1, Raise e) => (s1, Raise e)
    end
  else (s, Raise (DatabaseError "Maximum connections reached")).

(** The body of the outer [try] of [get_connection] (lines 70-92). *)
Definition get_connection_try (env : Env) (s : PoolState) : PoolState * result conn :=
  match wait_for_queue_get s with
  | Some (c, s1) =>
      if _validate_connection_sync env s1 c
      then (metrics_increment "connection_success" s1, Ok c)
      else create_if_under_limit env (_close_connection c s1)
  | None =>
      create_if_under_limit env (_metrics_bump "timeouts" s)
  end.

(** [get_connection], from taking the lock to releasing it.  The whole
    body is inside [async with self._lock], and so is the body of
    [return_connection]: no other call of the pool runs in between, and
    the states of the pool that callers can tell apart are those between
    two calls. *)
Definition get_connection (env : Env) (s : PoolState) : PoolState * result conn :=
  match get_connection_try env s with
  | (s1, Ok c) => (s1, Ok c)
  | (s1, Raise e) =>
      (metrics_increment "connection_errors" s1,
       Raise (DatabaseError ("Failed to get connection: " ++ str e)))
  end.

(** [asyncio.Queue.full()]: a [maxsize <= 0] queue is never full. *)
Definition queue_full (s : PoolState) : bool :=
  if (max_connections s <=? 0)%Z then false
  else (max_connections s <=? Z.of_nat (length (_connection_queue s)))%Z.

(** How a call that may wait for ever ends. *)
Inductive progress : Type :=
  | Completed
  | BlockedForever.

#[global] Instance progress_eq_dec : EqDecision progress.
Proof. solve_decision. Defined.

(** [return_connection].  [await queue.put(conn)] never raises
    [asyncio.QueueFull] (only [put_nowait] does): on a full queue it waits
    for a consumer, and every consumer needs the lock held here, so the
    call never completes and the [except] branch is never entered. *)
Definition return_connection (c : conn) (s : PoolState) : PoolState * progress :=
  if decide (c ∈ _active_connections s) then
    if queue_full s then (s, BlockedForever)
    else (metrics_increment "connection_return_success"
            (set_queue (_connection_queue s ++ [c]) s), Completed)
  else (s, Completed).

(** [await x] on a [sqlite3.Connection], which has no [__await__]. *)
Definition await_connection (c : conn) : result conn :=
  Raise (TypeError "object sqlite3.Connection can't be used in 'await' expression").

(** The [while not self._connection_queue.empty()] loop of [close_all];
    [fuel] bounds the iterations (the queue shrinks by one in each).  The
    body is [conn = await self._connection_queue.get_nowait(); conn.close()]:
    [get_nowait()] removes and returns the head, a connection, and the
    [await] is applied to that connection; the handler only catches
    [asyncio.QueueEmpty]. *)
Fixpoint close_all_drain (fuel : nat) (s : PoolState) : PoolState * result unit :=
  match fuel with
  | O => (s, Ok tt)
  | S fuel' =>
      match _connection_queue s with
      | [] => (s, Ok tt)
      | c :: q =>
          let s1 := set_queue q s in
          match await_connection c with
          | Ok c' => close_all_drain fuel' (set_closed ({[c']} ∪ closed s1) s1)
          | Raise e => (s1, Raise e)
          end
      end
  end.

(** [close_all] *)
Definition close_all (s : PoolState) : PoolState * result unit :=
  match close_all_drain (length (_connection_queue s)) s with
  | (s1, Ok _) =>
      let s2 := set_closed (_active_connections s1 ∪ closed s1) s1 in
      (set_active ∅ s2, Ok tt)
  | (s1, Raise e) => (s1, Raise e)
  end.

(** ** Callers

    [checked_out] lists the connections callers currently own: a connection
    enters it when [get_connection] returns it and leaves it when its owner
    calls [return_connection]. *)
Record Sys : Type := mk_sys {
  pool_state : PoolState;
  checked_out : list conn;
}.

Inductive call : Type :=
  | Acquire (env : Env)
  | Release (c : conn).

(** Remove one occurrence. *)
Fixpoint remove_one (c : conn) (l : list conn) : list conn :=
  match l with
  | [] => []
  | x :: l' => if decide (x = c) then l' else x :: remove_one c l'
  end.

Definition do_call (k : call) (s : Sys) : Sys * progress :=
  match k with
  | Acquire env =>
      match get_connection env (pool_state s) with
      | (p, Ok c) => (mk_sys p (c :: checked_out s), Completed)
      | (p, Raise _) => (mk_sys p (checked_out s), Completed)
      end
  | Release c =>
      match return_connection c (pool_state s) with
      | (p, Completed) => (mk_sys p (remove_one c (checked_out s)), Completed)
      | (p, BlockedForever) => (mk_sys p (checked_out s), BlockedForever)
      end
  end.

(** The states after each call of a sequence.  A call that blocks for ever
    keeps the lock, so no later call runs. *)
Fixpoint run (ks : list call) (s : Sys) : list Sys :=
  match ks with
  | [] => []
  | k :: ks' =>
      match do_call k s with
      | (s', Completed) => s' :: run ks' s'
      | (s', BlockedForever) => []
      end
  end.

(** Every release is of a connection its caller owns at that moment. *)
Fixpoint releases_owned (ks : list call) (s : Sys) : Prop :=
  match ks with
  | [] => True
  | k :: ks' =>
      match k with
      | Acquire _ => True
      | Release c => c ∈ checked_out s
      end ∧ releases_owned ks' (do_call k s).1
  end.

Definition init (max_connections timeout : Z) : Sys :=
  mk_sys (__init__ max_connections timeout) [].

(** The pool invariant of the data model. *)
Definition pool_invariant (s : Sys) : Prop :=
  length (checked_out s) + length (_connection_queue (pool_state s))
    = size (_active_connections (pool_state s))
  ∧ (Z.of_nat (size (_active_connections (pool_state s)))
       ≤ max_connections (pool_state s))%Z.

(** ** Tasks

    The interleaving of callers.  A task is a call of [get_connection] or
    of [return_connection]; it is suspended at [async with self._lock]
    until the lock is free, and [get_connection] is suspended a second
    time, inside the lock, in [wait_for(queue.get())] when the queue is
    empty. *)
Inductive task : Type :=
  | GetLock (env : Env)        (* get_connection, at [async with self._lock] *)
  | GetWaiting (env : Env)     (* lock held, suspended in [wait_for(queue.get(), timeout)] *)
  | PutLock (c : conn)         (* return_connection, at [async with self._lock] *)
  | PutWaiting (c : conn)      (* lock held, suspended in [queue.put(conn)] *)
  | Finished (r : option (result conn)).

Record World : Type := mk_world {
  shared : PoolState;
  _lock : option nat;          (* the task holding [self._lock] *)
  tasks : list task;
}.

(** One scheduling step of task [i]; [None] when the task cannot run.  For
    [GetWaiting] the step is the expiry of the timeout: while the lock is
    held no other task changes the queue. *)
Definition step (i : nat) (w : World) : option World :=
  match tasks w !! i with
  | Some (GetLock env) =>
      match _lock w with
      | Some _ => None
      | None =>
          match wait_for_queue_get (shared w) with
          | None => Some (mk_world (shared w) (Some i) (<[i := GetWaiting env]> (tasks w)))
          | Some _ =>
              let (p, r) := get_connection env (shared w) in
              Some (mk_world p None (<[i := Finished (Some r)]> (tasks w)))
          end
      end
  | Some (GetWaiting env) =>
      let (p, r) := get_connection env (shared w) in
      Some (mk_world p None (<[i := Finished (Some r)]> (tasks w)))
  | Some (PutLock c) =>
      match _lock w with
      | Some _ => None
      | None =>
          match return_connection c (shared w) with
          | (p, Completed) => Some (mk_world p None (<[i := Finished None]> (tasks w)))
          | (p, BlockedForever) => Some (mk_world p (Some i) (<[i := PutWaiting c]> (tasks w)))
          end
      end
  | Some (PutWaiting c) =>
      match return_connection c (shared w) with
      | (p, Completed) => Some (mk_world p None (<[i := Finished None]> (tasks w)))
      | (p, BlockedForever) => None
      end
  | Some (Finished _) => None
  | None => None
  end.

(** ** The invariant of the proofs, and the scenarios of the examples *)

(** The invariant that carries the induction: callers and the idle queue
    hold each active connection exactly once, and connection objects are
    allocated with increasing numbers. *)
Record strong_inv (s : Sys) : Prop := mk_strong_inv {
  si_nodup : NoDup (checked_out s ++ _connection_queue (pool_state s));
  si_cover : ∀ c, c ∈ _active_connections (pool_state s)
                  ↔ c ∈ checked_out s ++ _connection_queue (pool_state s);
  si_fresh : ∀ c, c ∈ _active_connections (pool_state s) → c < next_conn (pool_state s);
  si_bound : (Z.of_nat (size (_active_connections (pool_state s)))
                ≤ Z.max 0 (max_connections (pool_state s)))%Z;
}.

(** An environment in which every probe succeeds and [sqlite3.connect] works. *)
Definition healthy : Env := mk_env (λ _, true) None.

(** An environment in which [sqlite3.connect] fails. *)
Definition cannot_connect : Env := mk_env (λ _, true) (Some "unable to open database file").

(** An environment in which the liveness probe fails. *)
Definition stale : Env := mk_env (λ _, false) None.

(** Three callers on a pool of two connections: a refused acquire, a stale
    idle connection that is replaced, a failed creation. *)
Definition busy_day : list call :=
  [ Acquire healthy; Acquire healthy; Acquire healthy; Release 0; Acquire stale;
    Release 1; Acquire healthy; Acquire cannot_connect; Release 2; Release 1 ].

(** The pool [DatabasePool(max_connections=1)] after one successful acquire. *)
Definition one_slot_taken : PoolState := (get_connection healthy (__init__ 1 30)).1.

(** A caller releases its connection twice. *)
Definition double_release : list call :=
  [ Acquire healthy; Release 0; Release 0 ].

(** The global pool after two acquires and the release of connection 0:
    connection 0 is idle, connection 1 is checked out. *)
Definition one_idle_one_out : Sys :=
  default (mk_sys pool [])
    (last (run [Acquire healthy; Acquire healthy; Release 0] (mk_sys pool []))).

(** Caller A asks [DatabasePool(max_connections=1)] for a connection while
    caller B, who owns connection 0, calls [return_connection]. *)
Definition acquire_meets_release : World :=
  mk_world one_slot_taken None [GetLock healthy; PutLock 0].

End Pool.

(* ===================================================================== *)
(** * Retry loops ([AsyncHTTPClient._request_with_retry] in
      [src/modules/base.py], [RepositoryManager._make_request_with_retry]
      in [src/modules/repository.py]) *)
(* ===================================================================== *)

Module Retry.

(** An [httpx.Response]. *)
Record response : Type := mk_response {
  resp_status : Z;
  resp_body : string;
}.

(** The wrapped operation is the body of the [try]:
    [response = await getattr(self.client, method)(url, **kwargs)] followed
    by [response.raise_for_status()].  [op k] is what its [k]-th run
    (counting from 0) gives. *)
Definition operation : Type := nat → result response.

(** What the loop does, in order. *)
Inductive event : Type :=
  | Attempt (k : nat)          (* the [k]-th run of the operation *)
  | Sleep (d : Q).             (* [await asyncio.sleep(d)] *)


(** The delays slept, in order. *)
Fixpoint sleeps (evs : list event) : list Q :=
  match evs with
  | [] => []
  | Attempt _ :: evs' => sleeps evs'
  | Sleep d :: evs' => d :: sleeps evs'
  end.

(** The cumulative backoff. *)
Definition total (ds : list Q) : Q := fold_right Qplus 0%Q ds.

(** ** [AsyncHTTPClient] *)
Record AsyncHTTPClient : Type := mk_client {
  max_retries : Z;
  retry_delay : Q;
}.

(** [AsyncHTTPClient.__init__]: [self.retry_delay = 1.0]. *)
Definition AsyncHTTPClient__init__ (max_retries : Z) : AsyncHTTPClient :=
  {| max_retries := max_retries; retry_delay := 1%Q |}.

(** The [for attempt in range(self.max_retries)] loop, with [n] values of
    the range left and [attempt] the next one.  When the range is
    exhausted the function falls off its end and returns [None]. *)
Fixpoint _request_with_retry_loop (self : AsyncHTTPClient) (op : operation)
    (n : nat) (attempt : nat) : list event * result (option response) :=
  match n with
  | O => ([], Ok None)
  | S n' =>
      match op attempt with
      | Ok r => ([Attempt attempt], Ok (Some r))
      | Raise e =>
          if is_HTTPError e then
            if (Z.of_nat attempt =? max_retries self - 1)%Z then
              ([Attempt attempt],
               Raise (APIError ("HTTP request failed after " ++ pretty (max_retries self)
                                ++ " attempts: " ++ str e)))
            else
              let (evs, r) := _request_with_retry_loop self op n' (S attempt) in
              (Attempt attempt
                 :: Sleep (retry_delay self * inject_Z (2 ^ Z.of_nat attempt))
                 :: evs, r)
          else ([Attempt attempt], Raise e)
      end
  end.

(** [_request_with_retry] *)
Definition _request_with_retry (self : AsyncHTTPClient) (op : operation)
  : list event * result (option response) :=
  _request_with_retry_loop self op (Z.to_nat (max_retries self)) 0.

(** ** [settings.retry] ([RetryConfig] in [src/config/settings.py]) *)
Record RetryConfig : Type := mk_retry_config {
  cfg_max_retries : Z;
  cfg_retry_delay : Q;
  cfg_retry_backoff : Q;
  cfg_retry_max_delay : Q;
}.

(** The defaults: 3, 0.5, 2.0 and 10.0. *)
Definition default_retry : RetryConfig :=
  {| cfg_max_retries := 3;
     cfg_retry_delay := 1 # 2;
     cfg_retry_backoff := 2;
     cfg_retry_max_delay := 10 |}.

(** The [while retry_count < settings.retry.max_retries] loop of
    [_make_request_with_retry].  [fuel] bounds the iterations; [None] is
    "out of fuel".  The operation has run [retry_count] times when an
    iteration starts. *)
Fixpoint _make_request_with_retry_loop (cfg : RetryConfig) (op : operation)
    (fuel : nat) (retry_count : Z) : option (list event * result (option response)) :=
  if (retry_count <? cfg_max_retries cfg)%Z then
    match fuel with
    | O => None
    | S fuel' =>
        let k := Z.to_nat retry_count in
        match op k with
        | Ok r => Some ([Attempt k], Ok (Some r))
        | Raise e =>
            if is_HTTPError e then
              let retry_count := (retry_count + 1)%Z in
              if (retry_count =? cfg_max_retries cfg)%Z then
                Some ([Attempt k],
                      Raise (APIError ("HTTP error after " ++ pretty retry_count
                                       ++ " retries: " ++ str e)))
              else
                match _make_request_with_retry_loop cfg op fuel' retry_count with
                | Some (evs, r) =>
                    Some (Attempt k
                            :: Sleep (cfg_retry_delay cfg
                                      * Qpower (cfg_retry_backoff cfg) retry_count)
                            :: evs, r)
                | None => None
                end
            else Some ([Attempt k], Raise e)
        end
    end
  else Some ([], Ok None).

(** [_make_request_with_retry]: [retry_count = 0], then the loop. *)
Definition _make_request_with_retry (cfg : RetryConfig) (op : operation)
  : option (list event * result (option response)) :=
  _make_request_with_retry_loop cfg op (Z.to_nat (cfg_max_retries cfg)) 0.

(** ** The delays of the specification

    "Between attempts [i] and [i+1], waits
    [min(base_delay * backoff_multiplier^i, max_delay)]." *)
Definition spec_delay (base_delay backoff_multiplier max_delay : Q) (i : nat) : Q :=
  Qmin (base_delay * Qpower backoff_multiplier (Z.of_nat i)) max_delay.

Definition spec_delays (base_delay backoff_multiplier max_delay : Q) (N : nat) : list Q :=
  map (spec_delay base_delay backoff_multiplier max_delay) (seq 0 (N - 1)).

(** ** The events of failed attempts, and the operations of the examples *)

(** The events of [m] failed attempts starting at attempt [a], each
    followed by its backoff sleep. *)
Definition backoff_events (delay : nat → Q) (a m : nat) : list event :=
  flat_map (λ i, [Attempt i; Sleep (delay i)]) (seq a m).

(** The delay slept after the failed attempt [i] in [base.py]. *)
Definition client_delay (self : AsyncHTTPClient) (i : nat) : Q :=
  (retry_delay self * inject_Z (2 ^ Z.of_nat i))%Q.

(** The delay slept after the failed attempt [i] in [repository.py]:
    [retry_count] has been incremented to [i + 1] when it is computed. *)
Definition manager_delay (cfg : RetryConfig) (i : nat) : Q :=
  (cfg_retry_delay cfg * Qpower (cfg_retry_backoff cfg) (Z.of_nat i + 1))%Q.

(** A connection error, an [httpx.TransportError]. *)
Definition connect_error : exn :=
  mk_exn httpx_TransportError_cls "All connection attempts failed" None None.

(** An operation every run of which fails with a connection error. *)
Definition always_fails : operation := λ _, Raise connect_error.


(** An operation that fails twice with a connection error and then
    succeeds. *)
Definition fails_twice_then_ok : operation :=
  λ k, match k with
       | O | S O => Raise connect_error
       | _ => Ok (mk_response 200 "ok")
       end.


End Retry.

(* ===================================================================== *)
(** * RequestBatcher ([src/modules/base.py]) *)
(* ===================================================================== *)

Module Batcher.

(** A request is a [Dict]: keys with optional string values. *)
Abbreviation request := (list (string * option string)) (only parsing).

(** An element of the result sequence of the physical call. *)
Abbreviation value := string (only parsing).

(** Python slices [l[:n]] and [l[n:]] for an [int] [n]: a negative [n]
    counts from the end. *)
Definition slice_to {A : Type} (l : list A) (n : Z) : list A :=
  if (0 <=? n)%Z then take (Z.to_nat n) l
  else take (Z.to_nat (Z.of_nat (length l) + n)) l.

Definition slice_from {A : Type} (l : list A) (n : Z) : list A :=
  if (0 <=? n)%Z then drop (Z.to_nat n) l
  else drop (Z.to_nat (Z.of_nat (length l) + n)) l.

(** An [asyncio.Future]. *)
Inductive future_state : Type :=
  | Pending
  | Resolved (v : value)        (* [set_result(v)] *)
  | Rejected (e : exn)          (* [set_exception(e)] *)
  | FutureCancelled.            (* cancelled by its waiter *)

(** [future.done()] *)
Definition done (f : future_state) : bool :=
  match f with Pending => false | _ => true end.

(** A task running [_process_batch]. *)
Inductive task_state : Type :=
  | Sleeping (wake : Q)                     (* in [asyncio.sleep(self.batch_window)] until [wake] *)
  | Flushing (batch : list (request * nat)) (* in [await self._execute_batch(...)] *)
  | TaskCancelled
  | TaskDone.

(** The batcher object.  [_execute_batch] is not defined by
    [RequestBatcher]; [None] stands for the missing attribute and
    [Some f] for a subclass that provides it. *)
Record RequestBatcher : Type := mk_batcher {
  batch_size : Z;
  batch_window : Q;
  pending_requests : list (request * nat);   (* (request, future) pairs *)
  _batch_task : option nat;
  _execute_batch : option (list request → result (list value));
}.

(** Who may hold [self.lock]: the caller of [add_request] that created a
    given future, or a [_process_batch] task. *)
Inductive holder : Type :=
  | Caller (future : nat)
  | Task (t : nat).

(** The batcher with the event loop's futures, tasks and clock; [lock] is
    the holder of [self.lock], if any. *)
Record Loop : Type := mk_loop {
  batcher : RequestBatcher;
  futures : list future_state;
  tasks : list task_state;
  now : Q;
  lock : option holder;
}.

Definition set_batcher (b : RequestBatcher) (w : Loop) : Loop :=
  mk_loop b (futures w) (tasks w) (now w) (lock w).
Definition set_futures (fs : list future_state) (w : Loop) : Loop :=
  mk_loop (batcher w) fs (tasks w) (now w) (lock w).
Definition set_tasks (ts : list task_state) (w : Loop) : Loop :=
  mk_loop (batcher w) (futures w) ts (now w) (lock w).
Definition set_now (t : Q) (w : Loop) : Loop :=
  mk_loop (batcher w) (futures w) (tasks w) t (lock w).
Definition set_lock (l : option holder) (w : Loop) : Loop :=
  mk_loop (batcher w) (futures w) (tasks w) (now w) l.

Definition set_pending (p : list (request * nat)) (b : RequestBatcher) : RequestBatcher :=
  mk_batcher (batch_size b) (batch_window b) p (_batch_task b) (_execute_batch b).
Definition set_batch_task (t : option nat) (b : RequestBatcher) : RequestBatcher :=
  mk_batcher (batch_size b) (batch_window b) (pending_requests b) t (_execute_batch b).

(** [RequestBatcher.__init__] *)
Definition __init__ (batch_size : Z) (batch_window : Q) : RequestBatcher :=
  {| batch_size := batch_size;
     batch_window := batch_window;
     pending_requests := [];
     _batch_task := None;
     _execute_batch := None |}.

(** A subclass that defines [_execute_batch], or none. *)
Definition with_execute_batch (impl : option (list request → result (list value)))
    (b : RequestBatcher) : RequestBatcher :=
  mk_batcher (batch_size b) (batch_window b) (pending_requests b) (_batch_task b) impl.

(** A fresh event loop at time 0 around a batcher. *)
Definition start (b : RequestBatcher) : Loop :=
  {| batcher := b; futures := []; tasks := []; now := 0%Q; lock := None |}.

(** [async with self.lock: body] for a body without suspension point, run
    by [who]: when the lock is taken the caller is suspended ([None]). *)
Definition with_lock (who : holder) (body : Loop → Loop) (w : Loop) : option Loop :=
  match lock w with
  | Some _ => None
  | None => Some (set_lock None (body (set_lock (Some who) w)))
  end.

(** [asyncio.create_task(self._process_batch())]: the new task runs up to
    its first suspension point, [await asyncio.sleep(self.batch_window)]. *)
Definition create_task (w : Loop) : Loop * nat :=
  (set_tasks (tasks w ++ [Sleeping (now w + batch_window (batcher w))%Q]) w,
   length (tasks w)).

(** [task.cancel()]: a sleeping task is cancelled; on a task that is done
    it does nothing. *)
Definition cancel (t : nat) (w : Loop) : Loop :=
  match tasks w !! t with
  | Some (Sleeping _) => set_tasks (<[t := TaskCancelled]> (tasks w)) w
  | _ => w
  end.

(** The body of [async with self.lock] in [add_request] (lines 46-53). *)
Definition add_request_locked (request : request) (future : nat) (w : Loop) : Loop :=
  let b := batcher w in
  let b1 := set_pending (pending_requests b ++ [(request, future)]) b in
  let w1 := set_batcher b1 w in
  if (batch_size b1 <=? Z.of_nat (length (pending_requests b1)))%Z then
    let w2 := match _batch_task b1 with
              | Some t => cancel t w1
              | None => w1
              end in
    let (w3, t) := create_task w2 in
    set_batcher (set_batch_task (Some t) (batcher w3)) w3
  else
    match _batch_task b1 with
    | Some _ => w1
    | None =>
        let (w3, t) := create_task w1 in
        set_batcher (set_batch_task (Some t) (batcher w3)) w3
    end.

(** [add_request], up to [return await future]: the future created and the
    state in which the caller waits for it. *)
Definition add_request (request : request) (w : Loop) : option (Loop * nat) :=
  let future := length (futures w) in
  let w1 := set_futures (futures w ++ [Pending]) w in
  match with_lock (Caller future) (add_request_locked request future) w1 with
  | Some w2 => Some (w2, future)
  | None => None
  end.

(** The body of [async with self.lock] in [_process_batch] (lines 61-66)
    run by task [t]. *)
Definition _process_batch_locked (t : nat) (w : Loop) : Loop :=
  let b := batcher w in
  match pending_requests b with
  | [] => set_tasks (<[t := TaskDone]> (tasks w)) w
  | _ :: _ =>
      let batch := slice_to (pending_requests b) (batch_size b) in
      let b1 := set_pending (slice_from (pending_requests b) (batch_size b)) b in
      let b2 := set_batch_task None b1 in
      set_tasks (<[t := Flushing batch]> (tasks w)) (set_batcher b2 w)
  end.

(** Task [t] wakes from [asyncio.sleep(self.batch_window)], which needs the
    clock to have reached its wake-up time, and runs the locked part. *)
Definition _process_batch_wake (t : nat) (w : Loop) : option Loop :=
  match tasks w !! t with
  | Some (Sleeping wake) =>
      if Qle_bool wake (now w) then with_lock (Task t) (_process_batch_locked t) w else None
  | _ => None
  end.

(** [self._execute_batch(requests)]: the attribute lookup fails when the
    class does not define the method. *)
Definition call_execute_batch (b : RequestBatcher) (requests : list request)
  : result (list value) :=
  match _execute_batch b with
  | Some f => f requests
  | None => Raise (AttributeError "'RequestBatcher' object has no attribute '_execute_batch'")
  end.

(** [if not future.done(): future.set_result(result)] *)
Definition set_result (future : nat) (v : value) (fs : list future_state)
  : list future_state :=
  match fs !! future with
  | Some f => if done f then fs else <[future := Resolved v]> fs
  | None => fs
  end.

(** [if not future.done(): future.set_exception(e)] *)
Definition set_exception (future : nat) (e : exn) (fs : list future_state)
  : list future_state :=
  match fs !! future with
  | Some f => if done f then fs else <[future := Rejected e]> fs
  | None => fs
  end.

(** [for (_, future), result in zip(batch, results): ...] *)
Fixpoint set_results (batch : list (request * nat)) (results : list value)
    (fs : list future_state) : list future_state :=
  match batch, results with
  | (_, future) :: batch', result :: results' =>
      set_results batch' results' (set_result future result fs)
  | _, _ => fs
  end.

(** [for _, future in batch: ...] *)
Fixpoint set_exceptions (batch : list (request * nat)) (e : exn)
    (fs : list future_state) : list future_state :=
  match batch with
  | (_, future) :: batch' => set_exceptions batch' e (set_exception future e fs)
  | [] => fs
  end.

(** The [try] of [_process_batch] (lines 68-81) on the batch taken. *)
Definition distribute (b : RequestBatcher) (batch : list (request * nat))
    (fs : list future_state) : list future_state :=
  match call_execute_batch b (map fst batch) with
  | Ok results => set_results batch results fs
  | Raise e => set_exceptions batch e fs
  end.

(** Task [t] comes back from [await self._execute_batch(...)] and resolves
    the futures of its batch. *)
Definition _process_batch_finish (t : nat) (w : Loop) : option Loop :=
  match tasks w !! t with
  | Some (Flushing batch) =>
      Some (set_tasks (<[t := TaskDone]> (tasks w))
              (set_futures (distribute (batcher w) batch (futures w)) w))
  | _ => None
  end.

(** A waiter gives up: [await future] is cancelled, which cancels the
    future when it is not done. *)
Definition cancel_waiter (future : nat) (w : Loop) : Loop :=
  match futures w !! future with
  | Some Pending => set_futures (<[future := FutureCancelled]> (futures w)) w
  | _ => w
  end.

(** What can happen to a batcher. *)
Inductive action : Type :=
  | Submit (request : request)     (* a caller runs [add_request] *)
  | Tick (t : Q)                   (* the clock reaches [t] *)
  | Wake (t : nat)                 (* task [t] wakes from its sleep *)
  | Finish (t : nat)               (* task [t]'s physical call ends *)
  | GiveUp (future : nat).         (* a waiter is cancelled *)

(** An action that cannot happen leaves the state as it is. *)
Definition act (a : action) (w : Loop) : Loop :=
  match a with
  | Submit request =>
      match add_request request w with
      | Some (w', _) => w'
      | None => w
      end
  | Tick t => if Qle_bool (now w) t then set_now t w else w
  | Wake t => default w (_process_batch_wake t w)
  | Finish t => default w (_process_batch_finish t w)
  | GiveUp future => cancel_waiter future w
  end.

Definition run (actions : list action) (w : Loop) : Loop :=
  fold_left (λ w a, act a w) actions w.

(** ** The invariant of the proofs, and the scenarios of the examples *)

(** The futures of the pending list are distinct and exist, the futures of
    a batch taken are distinct, and nobody holds the lock. *)
Record batch_inv (w : Loop) : Prop := mk_batch_inv {
  bi_pending_nodup : NoDup (map snd (pending_requests (batcher w)));
  bi_pending_bound : ∀ f, f ∈ map snd (pending_requests (batcher w)) → f < length (futures w);
  bi_flush_nodup : ∀ t batch, tasks w !! t = Some (Flushing batch) → NoDup (map snd batch);
  bi_lock : lock w = None;
}.

(** The state in which the caller of [add_request] runs the locked part. *)
Definition entering (w : Loop) : Loop :=
  set_lock (Some (Caller (length (futures w)))) (set_futures (futures w ++ [Pending]) w).

(** A request for one repository. *)
Definition repo (url : string) : list (string * option string) :=
  [("url", Some url); ("branch", None); ("auth_token", None)].

(** A subclass whose [_execute_batch] answers each request with its url. *)
Definition echo_urls (requests : list (list (string * option string)))
  : result (list string) :=
  Ok (map (λ req, match req with
                  | (_, Some url) :: _ => url
                  | _ => EmptyString
                  end) requests).

(** Two requests fill a batch of size 2; the clock reaches the end of the
    window and the flush task takes the batch. *)
Definition two_then_wake : list action :=
  [ Submit (repo "https://a.example/x.git"); Submit (repo "https://b.example/y.git");
    Tick (1 # 10); Wake 1 ].

(** Five requests, as many as the default [batch_size]. *)
Definition five_submits : list action :=
  [ Submit (repo "https://h.example/1.git"); Submit (repo "https://h.example/2.git");
    Submit (repo "https://h.example/3.git"); Submit (repo "https://h.example/4.git");
    Submit (repo "https://h.example/5.git") ].

(** The default batcher, [RequestBatcher(batch_size=5, batch_window=0.1)],
    after five submissions at time 0. *)
Definition full_batch : Loop := run five_submits (start (__init__ 5 (1 # 10))).

(** ** More about the states a batcher reaches *)

(** A sleeping task is the one [self._batch_task] names. *)
Definition sleeping_inv (w : Loop) : Prop :=
  ∀ t wake, tasks w !! t = Some (Sleeping wake) → _batch_task (batcher w) = Some t.

(** The requests of the submissions of a sequence of actions, in order. *)
Fixpoint requests_of (actions : list action) : list (list (string * option string)) :=
  match actions with
  | [] => []
  | Submit request :: actions' => request :: requests_of actions'
  | _ :: actions' => requests_of actions'
  end.

(** Only submissions and the passing of time. *)
Definition submission (a : action) : bool :=
  match a with
  | Submit _ | Tick _ => true
  | _ => false
  end.

(** Three requests in a row, and the end of the window. *)
Definition three_then_tick : list action :=
  [ Submit (repo "https://h.example/1.git"); Submit (repo "https://h.example/2.git");
    Submit (repo "https://h.example/3.git"); Tick (1 # 10) ].

(** A batcher of size 2 after them. *)
Definition three_for_two : Loop :=
  run three_then_tick (start (with_execute_batch None (__init__ 2 (1 # 10)))).

End Batcher.

(* ===================================================================== *)
(** * RepositoryManager ([src/modules/repository.py]) *)
(* ===================================================================== *)

Module Repository.

(** What an attribute of a manager holds. *)
Inductive pyobj : Type :=
  | PyInt (z : Z)
  | PyFloat (q : Q)
  | PyList                                  (* [self._cleanup_tasks = []] *)
  | PyClient                                (* an [httpx.AsyncClient] *)
  | PyMetrics                               (* a [Metrics] *)
  | PyCache                                 (* a [RepositoryCache] *)
  | PyBatcher (b : Batcher.RequestBatcher)  (* a [RequestBatcher] *)
  | PyFunction (line : nat).                (* the [def] at that line of the class body *)

(** A class body binds its [def]s in source order; a later [def] of a name
    replaces the earlier one. *)
Definition class_body (defs : list (string * nat)) : gmap string nat :=
  fold_left (λ ns d, <[d.1 := d.2]> ns) defs ∅.

(** [class AsyncHTTPClient] ([src/modules/base.py]) *)
Definition AsyncHTTPClient_class : gmap string nat :=
  class_body [ ("__init__", 8); ("_request_with_retry", 17);
               ("__aenter__", 28); ("__aexit__", 31) ].

(** [class RepositoryManager(AsyncHTTPClient)] *)
Definition RepositoryManager_class : gmap string nat :=
  class_body [ ("__init__", 20); ("__aenter__", 26); ("__aexit__", 29);
               ("validate_repository_url", 37); ("_make_request_with_retry", 49);
               ("add_repository", 63); ("batch_add_repositories", 173);
               ("get_repositories_status", 195); ("delete_repository", 200);
               ("sync_repository", 245); ("process_repository", 286);
               ("prune_data", 327); ("prune_system", 360);
               ("toggle_repository_state", 412); ("batch_add_repositories", 469) ].

(** [AsyncHTTPClient.__init__] on the instance dictionary. *)
Definition AsyncHTTPClient__init__ (max_retries : Z) (self : gmap string pyobj)
  : gmap string pyobj :=
  <["client" := PyClient]>
    (<["retry_delay" := PyFloat 1]>
       (<["max_retries" := PyInt max_retries]> self)).

(** [RepositoryManager.__init__]: [super().__init__(base_url, timeout)]
    (so [max_retries] has its default 3), then [_cleanup_tasks], [metrics]
    and [cache]. *)
Definition RepositoryManager__init__ : gmap string pyobj :=
  <["cache" := PyCache]>
    (<["metrics" := PyMetrics]>
       (<["_cleanup_tasks" := PyList]>
          (AsyncHTTPClient__init__ 3 ∅))).

(** [self.name] on a manager: the instance dictionary, then the classes of
    the method resolution order.  The classes above [AsyncHTTPClient]
    ([typing.AsyncContextManager], [object]) only define names of the
    form [__x__], which are not looked up here; no class defines
    [__getattr__]. *)
Definition getattr (self : gmap string pyobj) (name : string) : result pyobj :=
  match self !! name with
  | Some v => Ok v
  | None =>
      match RepositoryManager_class !! name with
      | Some line => Ok (PyFunction line)
      | None =>
          match AsyncHTTPClient_class !! name with
          | Some line => Ok (PyFunction line)
          | None =>
              Raise (AttributeError ("'RepositoryManager' object has no attribute '"
                                     ++ name ++ "'"))
          end
      end
  end.

(** [batcher.add_request] on the value of [self.request_batcher]. *)
Definition getattr_add_request (v : pyobj) : result Batcher.RequestBatcher :=
  match v with
  | PyBatcher b => Ok b
  | _ => Raise (AttributeError "object has no attribute 'add_request'")
  end.

(** The argument of [add_request]:
    [{"url": repo['url'], "branch": repo.get('branch'),
      "auth_token": repo.get('auth_token')}]. *)
Definition request_of (repo : gmap string string)
  : result (list (string * option string)) :=
  match repo !! "url" with
  | Some url =>
      Ok [("url", Some url); ("branch", repo !! "branch");
          ("auth_token", repo !! "auth_token")]
  | None => Raise (mk_exn KeyError_cls "'url'" None None)
  end.

(** The [for repo in repositories] loop of the second
    [batch_add_repositories] (line 469).  In
    [futures.append(self.request_batcher.add_request({...}))] Python
    evaluates [self.request_batcher] first, then [.add_request], then the
    dictionary.  [add_request(...)] only creates a coroutine; the requests
    are submitted when [asyncio.gather] runs the coroutines. *)
Fixpoint batch_add_loop (self : gmap string pyobj) (repositories : list (gmap string string))
    (futures : list (list (string * option string)))
  : result (list (list (string * option string))) :=
  match repositories with
  | [] => Ok futures
  | repo :: repositories' =>
      match getattr self "request_batcher" with
      | Raise e => Raise e
      | Ok v =>
          match getattr_add_request v with
          | Raise e => Raise e
          | Ok _ =>
              match request_of repo with
              | Raise e => Raise e
              | Ok request => batch_add_loop self repositories' (futures ++ [request])
              end
          end
      end
  end.

(** [batch_add_repositories]: [Ok requests] hands the coroutines of
    [requests] to [asyncio.gather]; [Raise e] leaves before [gather], with
    nothing submitted. *)
Definition batch_add_repositories (self : gmap string pyobj)
    (repositories : list (gmap string string))
  : result (list (list (string * option string))) :=
  batch_add_loop self repositories [].

End Repository.

(* ===================================================================== *)
(** * DatabasePool: validation, metrics and the scoped acquisition
      ([validate_connections], [get_metrics] and [get_db_connection] in
      [src/database/connection.py]) *)
(* ===================================================================== *)

Module PoolOps.
Import Pool.

(** What the outside world answers during one [validate_connections]: the
    liveness probe of each connection, and the outcome of the [k]-th
    [sqlite3.connect] of the call. *)
Record VEnv : Type := mk_venv {
  v_probe : nat → bool;
  v_connect : nat → option string;
}.

(** The environment of the [k]-th creation. *)
Definition venv_at (env : VEnv) (k : nat) : Env :=
  mk_env (v_probe env) (v_connect env k).

(** The first loop: the active connections whose probe fails.  The probes
    all run before any connection is closed. *)
Definition invalid_connections (env : VEnv) (s : PoolState) : list nat :=
  filter (λ c, _validate_connection_sync (venv_at env 0) s c = false)
         (elements (_active_connections s)).

(** The second loop: close each invalid connection and count it. *)
Definition discard_invalid (invalid : list nat) (s : PoolState) : PoolState :=
  fold_left (λ s c, _metrics_bump "connection_errors" (_close_connection c s)) invalid s.

(** The [while len(self._active_connections) < self.max_connections] loop;
    [k] counts the creations of this call, [fuel] bounds the iterations and
    [None] is "out of fuel".  A created connection whose probe fails is
    neither added nor closed; a failed creation is logged and ends the
    loop. *)
Fixpoint refill (env : VEnv) (fuel : nat) (k : nat) (s : PoolState) : option PoolState :=
  if (Z.of_nat (size (_active_connections s)) <? max_connections s)%Z then
    match fuel with
    | O => None
    | S fuel' =>
        match _create_connection (venv_at env k) s with
        | (s1, Ok c) =>
            if _validate_connection_sync (venv_at env k) s1 c then
              refill env fuel' (S k)
                (_metrics_bump "total_connections"
                   (set_active ({[c]} ∪ _active_connections s1) s1))
            else refill env fuel' (S k) s1
        | (s1, Raise _) => Some s1
        end
    end
  else Some s.

(** [validate_connections], from taking the lock to releasing it. *)
Definition validate_connections (env : VEnv) (fuel : nat) (s : PoolState)
  : option PoolState :=
  refill env fuel 0 (discard_invalid (invalid_connections env s) s).

(** [get_metrics]: [{**self._metrics, "current_active": ..., "queue_size": ...}] *)
Definition get_metrics (s : PoolState) : gmap string Z :=
  <["queue_size" := Z.of_nat (length (_connection_queue s))]>
    (<["current_active" := Z.of_nat (size (_active_connections s))]> (_metrics s)).

(** How entering [async with get_db_connection(...)] ends: the generator
    yields a connection, raises, or finishes without yielding (then
    [contextlib] raises [RuntimeError("generator didn't yield")]). *)
Inductive entered : Type :=
  | Yielded (c : nat)
  | EnterRaised (e : exn)
  | NoYield.

(** The [for attempt in range(max_retries)] loop of [get_db_connection] up
    to its [yield], on the pool [s]; [envs k] is the environment of the
    [k]-th [get_connection].  The result carries the delays slept. *)
Fixpoint get_db_connection_loop (max_retries : Z) (retry_delay : Q) (envs : nat → Env)
    (n attempt : nat) (s : PoolState) : PoolState * list Q * entered :=
  match n with
  | O => (s, [], NoYield)
  | S n' =>
      match get_connection (envs attempt) s with
      | (s1, Ok c) => (s1, [], Yielded c)
      | (s1, Raise e) =>
          if (Z.of_nat attempt =? max_retries - 1)%Z then
            (s1, [],
             EnterRaised (DatabaseError ("Failed to get connection after "
                                         ++ pretty max_retries ++ " attempts: " ++ str e)))
          else
            let '(s2, ds, r) :=
              get_db_connection_loop max_retries retry_delay envs n' (S attempt) s1 in
            (s2, retry_delay :: ds, r)
      end
  end.

(** Entering [get_db_connection(max_retries, retry_delay)]. *)
Definition get_db_connection_enter (max_retries : Z) (retry_delay : Q) (envs : nat → Env)
    (s : PoolState) : PoolState * list Q * entered :=
  get_db_connection_loop max_retries retry_delay envs (Z.to_nat max_retries) 0 s.

(** Leaving the [async with] block normally: the generator resumes after
    the [yield], leaves the loop by [break], and its [finally] returns the
    connection. *)
Definition get_db_connection_exit (c : nat) (s : PoolState) : PoolState * progress :=
  return_connection c s.

(** One [async with get_db_connection(...) as conn:] block whose body ends
    normally: enter, then, if a connection was yielded, leave. *)
Definition scoped (max_retries : Z) (retry_delay : Q) (envs : nat → Env)
    (s : PoolState) : PoolState :=
  match get_db_connection_enter max_retries retry_delay envs s with
  | (s1, _, Yielded c) => (get_db_connection_exit c s1).1
  | (s1, _, _) => s1
  end.

(** The state after a sequence of calls. *)
Definition final (ks : list call) (s : Sys) : Sys :=
  fold_left (λ s k, (do_call k s).1) ks s.

(** A healthy environment for [validate_connections]. *)
Definition vhealthy : VEnv := mk_venv (λ _, true) (λ _, None).

(** Every creation works and every probe of a new connection fails. *)
Definition vstale : VEnv := mk_venv (λ _, false) (λ _, None).

(** The first creation works, the second fails. *)
Definition vone : VEnv :=
  mk_venv (λ _, true) (λ k, match k with O => None | S _ => Some "disk I/O error" end).

(** Connection 0 of the global pool is idle when its probe fails and is
    replaced by connection 1. *)
Definition after_stale_probe : Sys :=
  final [Acquire healthy; Release 0; Acquire stale] (mk_sys pool []).

(** The pool [after_stale_probe] with connection 1 closed behind its back. *)
Definition one_closed_elsewhere : PoolState :=
  set_closed ({[1]} ∪ closed (pool_state after_stale_probe)) (pool_state after_stale_probe).

(** The pool after [n] scoped acquisitions in a row. *)
Definition after_scopes (max_retries : Z) (retry_delay : Q) (envs : nat → Env)
    (n : nat) (s : PoolState) : PoolState :=
  Nat.iter n (scoped max_retries retry_delay envs) s.

(** One connection in use and one idle connection. *)
Definition settled (s : PoolState) : Prop :=
  _connection_queue s = [0] ∧ _active_connections s = {[0]}
  ∧ next_conn s = 1 ∧ closed s = ∅.

(** A closed connection stays closed, was allocated, and is held by no
    caller. *)
Definition retired (c : nat) (s : Sys) : Prop :=
  c ∈ closed (pool_state s) ∧ c < next_conn (pool_state s) ∧ c ∉ checked_out s.

(** [self._metrics] against the pool: [total_connections] counts the
    connections created, the other three counters are untouched. *)
Definition metrics_inv (s : PoolState) : Prop :=
  _metrics s !! "total_connections" = Some (Z.of_nat (next_conn s))
  ∧ _metrics s !! "active_connections" = Some 0%Z
  ∧ _metrics s !! "connection_errors" = Some 0%Z.

End PoolOps.

(* ===================================================================== *)
(** * Metrics ([src/modules/metrics.py]), the whole class *)
(* ===================================================================== *)

Module MetricsOps.

(** A [Metrics] object: [counters = defaultdict(int)] and
    [timers = defaultdict(list)].  Durations are [float]s; every [float] is
    a rational. *)
Record MetricsState : Type := mk_metrics {
  counters : gmap string Z;
  timers : gmap string (list Q);
}.

(** [Metrics.__init__] *)
Definition __init__ : MetricsState := {| counters := ∅; timers := ∅ |}.

(** [increment]: [self.counters[metric] += value] *)
Definition increment (metric : string) (value : Z) (m : MetricsState) : MetricsState :=
  mk_metrics (Metrics.increment metric value (counters m)) (timers m).

(** [record_time]: [self.timers[metric].append(duration)] *)
Definition record_time (metric : string) (duration : Q) (m : MetricsState) : MetricsState :=
  mk_metrics (counters m)
             (<[metric := default [] (timers m !! metric) ++ [duration]]> (timers m)).

(** [{"avg": sum(v)/len(v), "count": len(v)}] *)
Record timer_stats : Type := mk_stats {
  avg : Q;
  count : nat;
}.

Section Statistics.

(** The [float] addition and the division of a [float] by an [int], both
    of which round; nothing is assumed about them. *)
Variable fadd : Q → Q → Q.
Variable fdiv : Q → Z → Q.

(** [sum] adds from the left, starting at 0. *)
Definition stats_of (v : list Q) : timer_stats :=
  {| avg := fdiv (fold_left fadd v 0%Q) (Z.of_nat (length v));
     count := length v |}.

(** [get_metrics]: the counters, and the statistics of the timers that
    have a sample ([if v]). *)
Definition get_metrics (m : MetricsState) : gmap string Z * gmap string timer_stats :=
  (counters m,
   stats_of <$> filter (λ kv, kv.2 ≠ []) (timers m)).

End Statistics.

(** A call on a [Metrics] object. *)
Inductive call : Type :=
  | Increment (metric : string) (value : Z)
  | RecordTime (metric : string) (duration : Q).

Definition do_call (k : call) (m : MetricsState) : MetricsState :=
  match k with
  | Increment metric value => increment metric value m
  | RecordTime metric duration => record_time metric duration m
  end.

Definition run (ks : list call) (m : MetricsState) : MetricsState :=
  fold_left (λ m k, do_call k m) ks m.

(** The values added to a counter, and the durations recorded for a
    timer, by a sequence of calls, in order. *)
Fixpoint increments_of (metric : string) (ks : list call) : list Z :=
  match ks with
  | [] => []
  | Increment metric' value :: ks' =>
      if decide (metric' = metric) then value :: increments_of metric ks'
      else increments_of metric ks'
  | RecordTime _ _ :: ks' => increments_of metric ks'
  end.

Fixpoint durations_of (metric : string) (ks : list call) : list Q :=
  match ks with
  | [] => []
  | RecordTime metric' duration :: ks' =>
      if decide (metric' = metric) then duration :: durations_of metric ks'
      else durations_of metric ks'
  | Increment _ _ :: ks' => durations_of metric ks'
  end.

End MetricsOps.

(* ===================================================================== *)
(** * validate_input ([src/modules/validation.py]) *)
(* ===================================================================== *)

Module Validation.

(** The classes used as expected types. *)
Inductive pytype : Type :=
  | TStr | TInt | TFloat | TBool | TDict | TList | TUUID.

(** The values passed as data. *)
Inductive pyval : Type :=
  | VStr (s : string)
  | VInt (z : Z)
  | VFloat (q : Q)
  | VBool (b : bool)
  | VNone
  | VDict
  | VList
  | VUUID (s : string).

(** [isinstance(v, t)]; [bool] is a subclass of [int]. *)
Definition isinstance (v : pyval) (t : pytype) : bool :=
  match v, t with
  | VStr _, TStr => true
  | VInt _, TInt => true
  | VBool _, TInt => true
  | VBool _, TBool => true
  | VFloat _, TFloat => true
  | VDict, TDict => true
  | VList, TList => true
  | VUUID _, TUUID => true
  | _, _ => false
  end.

(** [t.__name__] *)
Definition __name__ (t : pytype) : string :=
  match t with
  | TStr => "str" | TInt => "int" | TFloat => "float" | TBool => "bool"
  | TDict => "dict" | TList => "list" | TUUID => "UUID"
  end.

(** How [validate_input] ends: it returns [None], or raises the built-in
    [ValueError] or [TypeError] with a message. *)
Inductive outcome : Type :=
  | Returns
  | RaisesValueError (m : string)
  | RaisesTypeError (m : string).

(** [validate_input(data, types)]: [types.items()] in insertion order. *)
Fixpoint validate_input (data : gmap string pyval) (types : list (string * pytype))
  : outcome :=
  match types with
  | [] => Returns
  | (key, expected_type) :: types' =>
      match data !! key with
      | None => RaisesValueError ("Missing required field: " ++ key)
      | Some v =>
          if isinstance v expected_type then validate_input data types'
          else RaisesTypeError ("Field " ++ key ++ " must be of type "
                                ++ __name__ expected_type)
      end
  end.

(** A field of [data] is as [types] wants it. *)
Definition field_ok (data : gmap string pyval) (kt : string * pytype) : Prop :=
  ∃ v, data !! kt.1 = Some v ∧ isinstance v kt.2 = true.

(** The types [DatabasePool.__init__] asks for. *)
Definition pool_types : list (string * pytype) :=
  [ ("db_path", TStr); ("max_connections", TInt); ("timeout", TInt) ].

End Validation.

(* ===================================================================== *)
(** * RepositoryCache ([src/modules/repository.py]) *)
(* ===================================================================== *)

Module Cache.

(** [a < b] on rationals, as a boolean. *)
Definition Qltb (a b : Q) : bool := negb (Qle_bool b a).

(** A cache entry: [{'data': data, 'timestamp': time.time()}].  Clock
    readings are [float]s; every [float] is a rational and the order of
    [float]s is that of their values, so they are modelled by [Q]. *)
Record entry : Type := mk_entry {
  data : string;
  timestamp : Q;
}.

(** A [RepositoryCache]; keys are dataset ids. *)
Record RepositoryCache : Type := mk_cache {
  _cache : gmap string entry;
  _cache_duration : Z;
}.

(** [RepositoryCache.__init__] *)
Definition __init__ (cache_duration : Z) : RepositoryCache :=
  {| _cache := ∅; _cache_duration := cache_duration |}.

Section Operations.

(** The [float] subtraction [a - b], which rounds; nothing is assumed
    about it. *)
Variable fsub : Q → Q → Q.

(** [time.time() - entry['timestamp'] < self._cache_duration] *)
Definition fresh (now : Q) (e : entry) (c : RepositoryCache) : bool :=
  Qltb (fsub now (timestamp e)) (inject_Z (_cache_duration c)).

(** [get], called when the clock reads [now]. *)
Definition get (dataset_id : string) (now : Q) (c : RepositoryCache)
  : RepositoryCache * option string :=
  match _cache c !! dataset_id with
  | Some e =>
      if fresh now e c then (c, Some (data e))
      else (mk_cache (delete dataset_id (_cache c)) (_cache_duration c), None)
  | None => (c, None)
  end.

End Operations.

(** [set], called when the clock reads [now]. *)
Definition set (dataset_id : string) (d : string) (now : Q) (c : RepositoryCache)
  : RepositoryCache :=
  mk_cache (<[dataset_id := mk_entry d now]> (_cache c)) (_cache_duration c).

(** [invalidate]: [self._cache.pop(dataset_id, None)] *)
Definition invalidate (dataset_id : string) (c : RepositoryCache) : RepositoryCache :=
  mk_cache (delete dataset_id (_cache c)) (_cache_duration c).

(** [clear] *)
Definition clear (c : RepositoryCache) : RepositoryCache :=
  mk_cache ∅ (_cache_duration c).

(** A change of the cache that concerns one key. *)
Inductive change : Type :=
  | DoSet (d : string) (now : Q)
  | DoInvalidate
  | DoGet (now : Q).

Definition apply_change (fsub : Q → Q → Q) (dataset_id : string) (ch : change)
    (c : RepositoryCache) : RepositoryCache :=
  match ch with
  | DoSet d now => set dataset_id d now c
  | DoInvalidate => invalidate dataset_id c
  | DoGet now => (get fsub dataset_id now c).1
  end.

End Cache.

(* ===================================================================== *)
(** * Constructing a pool ([DatabasePool.__init__] with its validation) *)
(* ===================================================================== *)

Module PoolConstruct.
Import Pool Validation.

(** The integer an instance of [int] stands for ([True] is [1]); other
    values do not pass the validation. *)
Definition as_int (v : pyval) : Z :=
  match v with
  | VInt z => z
  | VBool b => Z.b2z b
  | _ => 0%Z
  end.

(** [DatabasePool(db_path, max_connections, timeout)]: the new pool, or
    the error [validate_input] raises. *)
Definition DatabasePool (db_path max_connections timeout : pyval)
  : PoolState + outcome :=
  match validate_input
          (<["timeout" := timeout]>
             (<["max_connections" := max_connections]> (<["db_path" := db_path]> ∅)))
          pool_types with
  | Returns => inl (Pool.__init__ (as_int max_connections) (as_int timeout))
  | raised => inr raised
  end.

End PoolConstruct.

Module PoolFacts.
Import Pool.

(** Reduce the projections of the state records, and nothing else. *)
Ltac proj :=
  cbn [pool_state checked_out max_connections timeout _connection_queue
       _active_connections _metrics metrics closed next_conn fst snd app] in *.

Ltac unfold_setters :=
  unfold metrics_increment, _metrics_bump, _close_connection, set_queue, set_active,
    set__metrics, set_metrics, set_closed, set_next_conn in *; proj.

Lemma size_of_cover (X : gset conn) (l : list conn) :
  NoDup l → (∀ c, c ∈ X ↔ c ∈ l) → size X = length l.
Proof.
  intros Hnd Hcov.
  assert (X = list_to_set l) as HX.
  { apply set_eq. intros c. by rewrite Hcov, elem_of_list_to_set. }
  rewrite HX. by apply size_list_to_set.
Qed.

Lemma strong_inv_size (s : Sys) :
  strong_inv s →
  length (checked_out s) + length (_connection_queue (pool_state s))
    = size (_active_connections (pool_state s)).
Proof.
  intros [Hnd Hcov _ _]. rewrite (size_of_cover _ _ Hnd Hcov). by rewrite length_app.
Qed.

Lemma strong_inv_init (m t : Z) : strong_inv (init m t).
Proof.
  split; unfold init, __init__; proj.
  - constructor.
  - set_solver.
  - set_solver.
  - rewrite size_empty. lia.
Qed.

Lemma remove_one_perm (c : conn) (l : list conn) :
  c ∈ l → l ≡ₚ c :: remove_one c l.
Proof.
  induction l as [|x l IH]; intros Hin; [by apply elem_of_nil in Hin|].
  simpl. destruct (decide (x = c)) as [->|Hne]; [done|].
  apply elem_of_cons in Hin as [->|Hin]; [done|].
  rewrite (IH Hin) at 1. apply perm_swap.
Qed.

Lemma create_if_under_limit_inv (env : Env) (p p' : PoolState) (out : list conn)
    (r : result conn) :
  strong_inv (mk_sys p out) →
  create_if_under_limit env p = (p', r) →
  match r with
  | Ok c => strong_inv (mk_sys p' (c :: out))
  | Raise _ => strong_inv (mk_sys p' out)
  end.
Proof.
  intros [Hnd Hcov Hf Hb] Hrun. unfold create_if_under_limit, _create_connection in Hrun.
  proj.
  destruct (Z.ltb_spec (Z.of_nat (size (_active_connections p))) (max_connections p))
    as [Hlt|Hge].
  - destruct (connect_error env) as [m|]; inversion Hrun; subst; clear Hrun.
    + by split.
    + assert (next_conn p ∉ _active_connections p) as Hnew.
      { intros Hin. apply Hf in Hin. lia. }
      split; unfold_setters.
      * constructor; [|done]. by rewrite <- Hcov.
      * intros c.
        rewrite elem_of_union, elem_of_singleton, elem_of_cons, Hcov. done.
      * intros c. rewrite elem_of_union, elem_of_singleton.
        intros [->|Hin]; [lia|]. apply Hf in Hin. lia.
      * rewrite size_union by (by apply disjoint_singleton_l).
        rewrite size_singleton. lia.
  - inversion Hrun; subst. by split.
Qed.

Lemma strong_inv_metrics_increment (name : string) (p : PoolState) (out : list conn) :
  strong_inv (mk_sys p out) → strong_inv (mk_sys (metrics_increment name p) out).
Proof. by intros []. Qed.

Lemma strong_inv__metrics_bump (name : string) (p : PoolState) (out : list conn) :
  strong_inv (mk_sys p out) → strong_inv (mk_sys (_metrics_bump name p) out).
Proof. by intros []. Qed.

Lemma get_connection_try_inv (env : Env) (p p' : PoolState) (out : list conn)
    (r : result conn) :
  strong_inv (mk_sys p out) →
  get_connection_try env p = (p', r) →
  match r with
  | Ok c => strong_inv (mk_sys p' (c :: out))
  | Raise _ => strong_inv (mk_sys p' out)
  end.
Proof.
  intros Hinv. unfold get_connection_try.
  destruct (wait_for_queue_get p) as [[c p1]|] eqn:Hwait.
  - (* an idle connection was dequeued *)
    unfold wait_for_queue_get in Hwait.
    destruct (timeout p <=? 0)%Z; [done|].
    destruct (_connection_queue p) as [|c' q] eqn:Hq; [done|].
    inversion Hwait; subst c' p1; clear Hwait.
    destruct Hinv as [Hnd Hcov Hf Hb]; proj. rewrite Hq in *.
    apply NoDup_app in Hnd as (Hnd1 & Hdisj & Hnd2).
    apply NoDup_cons in Hnd2 as [Hcq Hnd2].
    assert (NoDup (out ++ q)) as Hnd'.
    { apply NoDup_app. split_and!; [done| |done].
      intros x Hx Hxq. apply (Hdisj x Hx). by right. }
    assert (c ∉ out) as Hco.
    { intros Hin. apply (Hdisj c Hin). by left. }
    destruct (_validate_connection_sync env (set_queue q p) c).
    + (* handed out *)
      intros Hrun; inversion Hrun; subst; clear Hrun.
      split; unfold_setters.
      * constructor; [|done]. rewrite elem_of_app. tauto.
      * intros x. rewrite Hcov. rewrite elem_of_cons, !elem_of_app, elem_of_cons. tauto.
      * done.
      * done.
    + (* discarded, then a new one is created if under the limit *)
      apply create_if_under_limit_inv.
      split; unfold_setters.
      * done.
      * intros x. rewrite elem_of_difference, elem_of_singleton, Hcov.
        rewrite !elem_of_app, elem_of_cons. split.
        -- intros [[?|[?|?]] ?]; tauto.
        -- intros [Hx|Hx]; (split; [tauto|]); by intros ->.
      * intros x. rewrite elem_of_difference. intros [Hx _]. by apply Hf.
      * etrans; [|exact Hb]. apply Nat2Z.inj_le, subseteq_size.
        by apply subseteq_difference_l.
  - (* the wait timed out *)
    apply create_if_under_limit_inv. by apply strong_inv__metrics_bump.
Qed.

Lemma get_connection_inv (env : Env) (s : Sys) :
  strong_inv s → strong_inv (do_call (Acquire env) s).1.
Proof.
  destruct s as [p out]. intros Hinv.
  unfold do_call, get_connection. proj.
  destruct (get_connection_try env p) as [p1 r] eqn:Hrun.
  apply (get_connection_try_inv env p p1 out r Hinv) in Hrun.
  destruct r; proj; [done|]. by apply strong_inv_metrics_increment.
Qed.

Lemma get_connection_completes (env : Env) (s : Sys) :
  (do_call (Acquire env) s).2 = Completed.
Proof.
  unfold do_call. by destruct (get_connection env (pool_state s)) as [? []].
Qed.

Lemma return_connection_inv (c : conn) (s : Sys) :
  strong_inv s → c ∈ checked_out s →
  strong_inv (do_call (Release c) s).1 ∧ (do_call (Release c) s).2 = Completed.
Proof.
  destruct s as [p out]. intros Hinv Hown. proj.
  pose proof (strong_inv_size _ Hinv) as Hsize.
  destruct Hinv as [Hnd Hcov Hf Hb]; proj.
  assert (c ∈ _active_connections p) as Hact.
  { apply Hcov, elem_of_app. by left. }
  assert (queue_full p = false) as Hfull.
  { unfold queue_full. destruct (Z.leb_spec (max_connections p) 0); [done|].
    apply Z.leb_gt. destruct out as [|x out]; [by apply elem_of_nil in Hown|].
    simpl in Hsize. lia. }
  unfold do_call, return_connection. proj.
  rewrite decide_True by done. rewrite Hfull. proj. split; [|done].
  pose proof (remove_one_perm c out Hown) as Hperm.
  assert (remove_one c out ++ _connection_queue p ++ [c] ≡ₚ out ++ _connection_queue p)
    as Hperm'.
  { rewrite (Permutation_app_comm (_connection_queue p) [c]). rewrite Hperm at 2.
    cbn [app]. by rewrite Permutation_middle. }
  split; unfold_setters.
  - by rewrite Hperm'.
  - intros x. by rewrite Hperm'.
  - done.
  - done.
Qed.

Lemma strong_inv_pool_invariant (s : Sys) :
  (0 ≤ max_connections (pool_state s))%Z → strong_inv s → pool_invariant s.
Proof.
  intros Hmax Hinv. split; [by apply strong_inv_size|].
  destruct Hinv as [_ _ _ Hb]. lia.
Qed.

Lemma do_call_max_connections (k : call) (s : Sys) :
  max_connections (pool_state (do_call k s).1) = max_connections (pool_state s).
Proof.
  destruct s as [p out]. destruct k as [env|c]; unfold do_call; proj.
  - unfold get_connection, get_connection_try, wait_for_queue_get,
      create_if_under_limit, _create_connection.
    repeat (case_match; simplify_eq; proj; try done).
  - unfold return_connection. repeat (case_match; simplify_eq; proj; try done).
Qed.

Lemma run_invariant (ks : list call) (s : Sys) :
  strong_inv s → releases_owned ks s →
  Forall strong_inv (run ks s) ∧ length (run ks s) = length ks.
Proof.
  revert s. induction ks as [|k ks IH]; intros s Hinv Hrel; [by split|].
  destruct Hrel as [Hk Hrel]. cbn [run].
  assert (strong_inv (do_call k s).1 ∧ (do_call k s).2 = Completed) as [Hinv' Hdone].
  { destruct k as [env|c].
    - split; [by apply get_connection_inv|by apply get_connection_completes].
    - by apply return_connection_inv. }
  destruct (do_call k s) as [s' pr]. proj. subst pr.
  destruct (IH s' Hinv' Hrel) as [Hall Hlen].
  split; [by constructor|]. cbn [length]. by rewrite Hlen.
Qed.

Lemma run_max_connections (ks : list call) (s : Sys) :
  Forall (λ s', max_connections (pool_state s') = max_connections (pool_state s)) (run ks s).
Proof.
  revert s. induction ks as [|k ks IH]; intros s; [constructor|].
  cbn [run]. pose proof (do_call_max_connections k s) as Hmax.
  destruct (do_call k s) as [s' []]; proj; [|constructor].
  constructor; [done|]. eapply Forall_impl; [apply IH|]. intros x Hx. simpl in Hx. congruence.
Qed.

End PoolFacts.

Module PoolSpec.
Import Pool PoolFacts.

(** C1.  For every sequence of [get_connection] and [return_connection]
    calls on a fresh pool in which each release is of a connection its
    caller owns (so every acquired connection is released at most once per
    acquisition), every call completes, and in the initial state and after
    every call the number of checked-out connections plus the number of
    idle connections equals the size of the active set, which never exceeds
    [max_connections]. *)
Theorem pool_invariant_holds (max_connections timeout : Z) (ks : list call) :
  (0 ≤ max_connections)%Z →
  releases_owned ks (init max_connections timeout) →
  length (run ks (init max_connections timeout)) = length ks
  ∧ Forall pool_invariant
      (init max_connections timeout :: run ks (init max_connections timeout)).
Proof.
  intros Hmax Hrel.
  pose proof (strong_inv_init max_connections timeout) as Hinit.
  destruct (run_invariant ks _ Hinit Hrel) as [Hall Hlen].
  split; [done|]. constructor.
  - by apply strong_inv_pool_invariant.
  - pose proof (run_max_connections ks (init max_connections timeout)) as Hm.
    rewrite Forall_forall in Hall, Hm. apply Forall_forall. intros s Hs.
    apply strong_inv_pool_invariant; [|by apply Hall].
    rewrite (Hm s Hs). done.
Qed.

Lemma pool_invariant_holds_witness :
  (0 ≤ 2)%Z
  ∧ releases_owned busy_day (init 2 30)
  ∧ length (run busy_day (init 2 30)) = length busy_day
  ∧ Forall pool_invariant (init 2 30 :: run busy_day (init 2 30)).
Proof.
  assert (releases_owned busy_day (init 2 30)) as Hrel.
  { unfold busy_day. cbn [releases_owned].
    repeat split; apply (bool_decide_unpack _); vm_compute; exact I. }
  split; [lia|]. split; [exact Hrel|].
  apply (pool_invariant_holds 2 30 busy_day); [lia|exact Hrel].
Defined.

(** A failed [get_connection_try] is a refusal at capacity or a failed
    creation below capacity. *)
Lemma get_connection_try_raises (env : Env) (s s' : PoolState) (e : exn) :
  get_connection_try env s = (s', Raise e) →
  (e = DatabaseError "Maximum connections reached"
   ∧ (max_connections s' ≤ Z.of_nat (size (_active_connections s')))%Z)
  ∨ (∃ m, connect_error env = Some m
          ∧ e = DatabaseError ("Failed to create connection: " ++ m)
          ∧ (Z.of_nat (size (_active_connections s')) < max_connections s')%Z).
Proof.
  assert (∀ s0, create_if_under_limit env s0 = (s', Raise e) →
    (e = DatabaseError "Maximum connections reached"
     ∧ (max_connections s' ≤ Z.of_nat (size (_active_connections s')))%Z)
    ∨ (∃ m, connect_error env = Some m
            ∧ e = DatabaseError ("Failed to create connection: " ++ m)
            ∧ (Z.of_nat (size (_active_connections s')) < max_connections s')%Z)) as Hcreate.
  { intros s0. unfold create_if_under_limit, _create_connection.
    destruct (Z.ltb_spec (Z.of_nat (size (_active_connections s0))) (max_connections s0))
      as [Hlt|Hge].
    - destruct (connect_error env) as [m|]; [|done].
      intros [= <- <-]. right. by exists m.
    - intros [= <- <-]. by left. }
  unfold get_connection_try.
  destruct (wait_for_queue_get s) as [[c s1]|]; [|apply Hcreate].
  destruct (_validate_connection_sync env s1 c); [done|apply Hcreate].
Qed.

(** C2 (amended).  Every failed [get_connection] raises the one class
    [DatabaseError], with no [code] and status 503.  The capacity case (the
    active set is at [max_connections]) and a failed creation (it is below)
    differ in the message only:
    ["Failed to get connection: Maximum connections reached"] against
    ["Failed to get connection: Failed to create connection: <cause>"].
    There is no [PoolExhausted] and no [AcquireTimeout]. *)
Theorem acquire_failure_is_DatabaseError (env : Env) (s s' : PoolState) (e : exn) :
  get_connection env s = (s', Raise e) →
  cls e = DatabaseError_cls ∧ code e = None ∧ status_code e = Some SERVICE_UNAVAILABLE
  ∧ ((message e = "Failed to get connection: Maximum connections reached"
      ∧ (max_connections s' ≤ Z.of_nat (size (_active_connections s')))%Z)
     ∨ (∃ m, connect_error env = Some m
             ∧ message e
               = ("Failed to get connection: Failed to create connection: " ++ m)%string
             ∧ (Z.of_nat (size (_active_connections s')) < max_connections s')%Z)).
Proof.
  unfold get_connection. intros Hrun.
  destruct (get_connection_try env s) as [s1 [c|e1]] eqn:Htry; [done|].
  inversion Hrun; subst; clear Hrun.
  split_and!; [done..|].
  apply get_connection_try_raises in Htry as [[-> Hcap]|(m & Hm & -> & Hcap)].
  - by left.
  - right. exists m. done.
Qed.

Lemma acquire_failure_is_DatabaseError_witness :
  ∃ s' e,
    get_connection healthy one_slot_taken = (s', Raise e)
    ∧ cls e = DatabaseError_cls ∧ code e = None ∧ status_code e = Some SERVICE_UNAVAILABLE
    ∧ ((message e = "Failed to get connection: Maximum connections reached"
        ∧ (max_connections s' ≤ Z.of_nat (size (_active_connections s')))%Z)
       ∨ (∃ m, connect_error healthy = Some m
               ∧ message e
                 = ("Failed to get connection: Failed to create connection: " ++ m)%string
               ∧ (Z.of_nat (size (_active_connections s')) < max_connections s')%Z)).
Proof.
  eexists _, _. split; [vm_compute; reflexivity|].
  eapply (acquire_failure_is_DatabaseError healthy one_slot_taken).
  vm_compute. reflexivity.
Defined.

(** C2 (counterexample).  Two failed acquires with different causes: in the
    first the wait expired with the active set at [max_connections] (the
    capacity case); in the second the wait expired with the active set
    below [max_connections] and the creation failed.  The caller gets
    errors of the same class, code and status. *)
Lemma acquire_failures_share_one_kind :
  ∃ s1 e1 s2 e2,
    get_connection healthy one_slot_taken = (s1, Raise e1)
    ∧ get_connection cannot_connect (__init__ 1 30) = (s2, Raise e2)
    ∧ Z.of_nat (size (_active_connections one_slot_taken)) = max_connections one_slot_taken
    ∧ (Z.of_nat (size (_active_connections (__init__ 1 30))) < max_connections (__init__ 1 30))%Z
    ∧ _metrics one_slot_taken !! "timeouts" = Some 1%Z
    ∧ _metrics s1 !! "timeouts" = Some 2%Z
    ∧ _metrics (__init__ 1 30) !! "timeouts" = Some 0%Z
    ∧ _metrics s2 !! "timeouts" = Some 1%Z
    ∧ cls e1 = cls e2 ∧ code e1 = code e2 ∧ status_code e1 = status_code e2.
Proof.
  eexists _, _, _, _.
  split; [vm_compute; reflexivity|].
  split; [vm_compute; reflexivity|].
  split_and!; vm_compute; reflexivity.
Qed.

(** [return_connection] only asks whether the connection is in the active
    set, which idle connections are too. *)
Lemma return_connection_of_idle (c : conn) (s : PoolState) :
  c ∈ _active_connections s → queue_full s = false →
  _connection_queue (return_connection c s).1 = _connection_queue s ++ [c].
Proof.
  intros Hact Hfull. unfold return_connection.
  rewrite decide_True by done. by rewrite Hfull.
Qed.

(** C6 (the code at the failing input).  On the global pool, connection 0
    is acquired and released, and released a second time while it is idle.
    The second release completes and appends the handle again: the idle
    queue holds it twice, and checked-out plus idle exceeds the size of the
    active set.  The next two acquires hand the same connection to two
    callers. *)
Theorem double_release_duplicates_idle_handle :
  ∃ s1 s2 s3 s4 s5,
    run (double_release ++ [Acquire healthy; Acquire healthy]) (mk_sys pool [])
      = [s1; s2; s3; s4; s5]
    ∧ checked_out s1 = [0]
    ∧ (checked_out s2 = [] ∧ _connection_queue (pool_state s2) = [0])
    ∧ (checked_out s3 = [] ∧ _connection_queue (pool_state s3) = [0; 0]
       ∧ size (_active_connections (pool_state s3)) = 1
       ∧ ¬ (length (checked_out s3) + length (_connection_queue (pool_state s3))
              ≤ size (_active_connections (pool_state s3))))
    ∧ checked_out s5 = [0; 0].
Proof.
  eexists _, _, _, _, _. split; [vm_compute; reflexivity|].
  split_and!; try (vm_compute; reflexivity).
  vm_compute. lia.
Qed.

(** With an idle connection, [close_all] leaves through the [TypeError] of
    its first [await]: the head of the queue is dequeued and dropped, no
    connection is closed and the active set is not cleared. *)
Lemma close_all_with_idle (s : PoolState) (c : conn) (q : list conn) :
  _connection_queue s = c :: q →
  close_all s
  = (set_queue q s,
     Raise (TypeError "object sqlite3.Connection can't be used in 'await' expression")).
Proof.
  intros Hq. unfold close_all. rewrite Hq. cbn [length close_all_drain]. by rewrite Hq.
Qed.

(** With an empty idle queue [close_all] closes every active connection
    and clears the active set. *)
Lemma close_all_without_idle (s : PoolState) :
  _connection_queue s = [] →
  close_all s
  = (set_active ∅ (set_closed (_active_connections s ∪ closed s) s), Ok tt).
Proof.
  intros Hq. unfold close_all. rewrite Hq. reflexivity.
Qed.

(** C8 (the code at the failing input).  With one idle and one checked-out
    connection, [close_all] does not terminate normally: it raises
    [TypeError], closes neither connection and leaves both in the active
    set; the idle connection is gone from the queue. *)
Theorem close_all_raises_with_idle_connection :
  _connection_queue (pool_state one_idle_one_out) = [0]
  ∧ checked_out one_idle_one_out = [1]
  ∧ ∃ s',
      close_all (pool_state one_idle_one_out)
        = (s', Raise (TypeError "object sqlite3.Connection can't be used in 'await' expression"))
      ∧ closed s' = ∅
      ∧ _active_connections s' = {[0; 1]}
      ∧ _connection_queue s' = [].
Proof.
  split; [vm_compute; reflexivity|]. split; [vm_compute; reflexivity|].
  eexists. split; [vm_compute; reflexivity|].
  split_and!; [done| |done].
  apply set_eq. intros x. rewrite elem_of_union, !elem_of_singleton.
  change (x ∈ ({[1]} ∪ ({[0]} ∪ ∅) : gset nat) ↔ x = 0 ∨ x = 1).
  rewrite !elem_of_union, !elem_of_singleton, elem_of_empty. tauto.
Qed.

(** While a task is suspended in [wait_for(queue.get())] it holds the
    lock, and a task at [async with self._lock] cannot run. *)
Lemma step_blocked_by_waiter (w : World) (i j : nat) (t : task) :
  _lock w = Some i →
  tasks w !! j = Some t →
  (∃ env, t = GetLock env) ∨ (∃ c, t = PutLock c) →
  step j w = None.
Proof.
  intros Hlock Hj Ht. unfold step. rewrite Hj, Hlock.
  by destruct Ht as [[env ->]|[c ->]].
Qed.

(** C9 (the code at the failing input).  Task 0 ([get_connection]) takes
    the lock and, the queue being empty, is suspended in
    [wait_for(queue.get())] with the lock held.  Task 1
    ([return_connection]) cannot run in that state.  The only step is the
    expiry of task 0's timeout, after which task 0 fails with
    "Maximum connections reached"; only then does the release complete. *)
Theorem acquire_waits_holding_pool_lock :
  ∃ w1 w2 w3,
    step 0 acquire_meets_release = Some w1
    ∧ _lock w1 = Some 0
    ∧ tasks w1 = [GetWaiting healthy; PutLock 0]
    ∧ step 1 w1 = None
    ∧ step 0 w1 = Some w2
    ∧ tasks w2
      = [Finished (Some (Raise (DatabaseError
           "Failed to get connection: Maximum connections reached")));
         PutLock 0]
    ∧ _lock w2 = None
    ∧ step 1 w2 = Some w3
    ∧ _connection_queue (shared w3) = [0].
Proof.
  eexists _, _, _.
  split; [vm_compute; reflexivity|].
  split; [reflexivity|]. split; [reflexivity|].
  split; [vm_compute; reflexivity|].
  split; [vm_compute; reflexivity|].
  split; [reflexivity|]. split; [reflexivity|].
  split; [vm_compute; reflexivity|].
  reflexivity.
Qed.

End PoolSpec.

Module RetryFacts.
Import Retry.

Lemma backoff_events_S (delay : nat → Q) (a m : nat) :
  backoff_events delay a (S m)
  = Attempt a :: Sleep (delay a) :: backoff_events delay (S a) m.
Proof. reflexivity. Qed.


Lemma sleeps_app (evs1 evs2 : list event) :
  sleeps (evs1 ++ evs2) = sleeps evs1 ++ sleeps evs2.
Proof.
  induction evs1 as [|[k|d] evs1 IH]; simpl; [done|done|]. by rewrite IH.
Qed.


Lemma sleeps_backoff_events (delay : nat → Q) (a m : nat) :
  sleeps (backoff_events delay a m) = map delay (seq a m).
Proof.
  revert a. induction m as [|m IH]; intros a; [done|].
  rewrite backoff_events_S. cbn [sleeps seq map]. by rewrite IH.
Qed.

(** *** [_request_with_retry] *)


(** While the attempts fail with an [httpx.HTTPError] and are not the last
    of the range, the loop sleeps and goes on. *)
Lemma request_loop_prefix (self : AsyncHTTPClient) (op : operation) (m n a : nat) :
  (∀ j, a ≤ j < a + m → ∃ e, op j = Raise e ∧ is_HTTPError e = true) →
  (Z.of_nat (a + m) ≤ max_retries self - 1)%Z →
  _request_with_retry_loop self op (m + n) a
  = (backoff_events (client_delay self) a m
       ++ (_request_with_retry_loop self op n (a + m)).1,
     (_request_with_retry_loop self op n (a + m)).2).
Proof.
  revert a. induction m as [|m IH]; intros a Hfail Hlast.
  - rewrite Nat.add_0_r. cbn [Nat.add backoff_events seq flat_map app].
    by destruct (_request_with_retry_loop self op n a).
  - cbn [Nat.add _request_with_retry_loop].
    destruct (Hfail a) as (e & -> & ->); [lia|].
    rewrite (proj2 (Z.eqb_neq _ _)) by lia.
    rewrite IH; [|intros j Hj; apply Hfail; lia|lia].
    rewrite backoff_events_S. replace (S a + m) with (a + S m) by lia. reflexivity.
Qed.


(** *** [_make_request_with_retry] *)



Lemma make_request_loop_prefix (cfg : RetryConfig) (op : operation) (m fuel a : nat) :
  (∀ j, a ≤ j < a + m → ∃ e, op j = Raise e ∧ is_HTTPError e = true) →
  (Z.of_nat (a + m) ≤ cfg_max_retries cfg - 1)%Z →
  _make_request_with_retry_loop cfg op (m + fuel) (Z.of_nat a)
  = match _make_request_with_retry_loop cfg op fuel (Z.of_nat (a + m)) with
    | Some (evs, r) => Some (backoff_events (manager_delay cfg) a m ++ evs, r)
    | None => None
    end.
Proof.
  revert a. induction m as [|m IH]; intros a Hfail Hlast.
  - rewrite Nat.add_0_r. cbn [Nat.add backoff_events seq flat_map app].
    by destruct (_make_request_with_retry_loop cfg op fuel (Z.of_nat a)) as [[]|].
  - cbn [Nat.add _make_request_with_retry_loop].
    rewrite (proj2 (Z.ltb_lt _ _)) by lia. rewrite Nat2Z.id.
    destruct (Hfail a) as (e & -> & ->); [lia|].
    rewrite (proj2 (Z.eqb_neq _ _)) by lia.
    replace (Z.of_nat a + 1)%Z with (Z.of_nat (S a)) by lia.
    rewrite IH; [|intros j Hj; apply Hfail; lia|lia].
    replace (S a + m) with (a + S m) by lia.
    destruct (_make_request_with_retry_loop cfg op fuel (Z.of_nat (a + S m))) as [[evs r]|];
      [|done].
    rewrite backoff_events_S. unfold manager_delay at 2.
    replace (Z.of_nat a + 1)%Z with (Z.of_nat (S a)) by lia. reflexivity.
Qed.


End RetryFacts.

Module RetrySpec.
Import Retry RetryFacts.

(** When every attempt fails with an [httpx.HTTPError], [_request_with_retry]
    runs the operation [max_retries] times and sleeps
    [retry_delay * 2 ** attempt] after each failure but the last. *)
Lemma request_all_fail (self : AsyncHTTPClient) (op : operation) :
  (1 ≤ max_retries self)%Z →
  (∀ k, k < Z.to_nat (max_retries self) → ∃ e, op k = Raise e ∧ is_HTTPError e = true) →
  ∃ e, op (Z.to_nat (max_retries self) - 1) = Raise e
    ∧ _request_with_retry self op
      = (backoff_events (client_delay self) 0 (Z.to_nat (max_retries self) - 1)
           ++ [Attempt (Z.to_nat (max_retries self) - 1)],
         Raise (APIError ("HTTP request failed after " ++ pretty (max_retries self)
                          ++ " attempts: " ++ str e))).
Proof.
  intros Hpos Hfail. set (N := Z.to_nat (max_retries self)) in *.
  destruct (Hfail (N - 1)) as (e & Hop & He); [lia|]. exists e. split; [done|].
  unfold _request_with_retry. fold N.
  replace N with ((N - 1) + 1) at 1 by lia.
  rewrite request_loop_prefix; [|intros j Hj; apply Hfail; lia|lia].
  cbn [Nat.add _request_with_retry_loop]. rewrite Hop, He.
  rewrite (proj2 (Z.eqb_eq _ _)) by lia. reflexivity.
Qed.







End RetrySpec.

Module BatcherFacts.
Import Batcher.

(** Reduce the projections of the batcher records. *)
Ltac bproj :=
  cbn [batcher futures tasks now lock batch_size batch_window pending_requests
       _batch_task _execute_batch set_batcher set_futures set_tasks set_now set_lock
       set_pending set_batch_task with_execute_batch fst snd
       default from_option id] in *.

(** *** Futures *)

Lemma set_result_length (f : nat) (v : string) (fs : list future_state) :
  length (set_result f v fs) = length fs.
Proof.
  unfold set_result. destruct (fs !! f) as [st|]; [|done].
  destruct (done st); [done|]. apply length_insert.
Qed.

Lemma set_exception_length (f : nat) (e : exn) (fs : list future_state) :
  length (set_exception f e fs) = length fs.
Proof.
  unfold set_exception. destruct (fs !! f) as [st|]; [|done].
  destruct (done st); [done|]. apply length_insert.
Qed.

Lemma set_result_other (f f' : nat) (v : string) (fs : list future_state) :
  f ≠ f' → set_result f' v fs !! f = fs !! f.
Proof.
  intros Hne. unfold set_result. destruct (fs !! f') as [st|]; [|done].
  destruct (done st); [done|]. by apply list_lookup_insert_ne.
Qed.

Lemma set_exception_other (f f' : nat) (e : exn) (fs : list future_state) :
  f ≠ f' → set_exception f' e fs !! f = fs !! f.
Proof.
  intros Hne. unfold set_exception. destruct (fs !! f') as [st|]; [|done].
  destruct (done st); [done|]. by apply list_lookup_insert_ne.
Qed.

Lemma set_result_pending (f : nat) (v : string) (fs : list future_state) :
  fs !! f = Some Pending → set_result f v fs !! f = Some (Resolved v).
Proof.
  intros Hf. unfold set_result. rewrite Hf. cbn [done].
  apply list_lookup_insert_eq. by eapply lookup_lt_Some.
Qed.

Lemma set_exception_pending (f : nat) (e : exn) (fs : list future_state) :
  fs !! f = Some Pending → set_exception f e fs !! f = Some (Rejected e).
Proof.
  intros Hf. unfold set_exception. rewrite Hf. cbn [done].
  apply list_lookup_insert_eq. by eapply lookup_lt_Some.
Qed.

Lemma set_results_length (batch : list (list (string * option string) * nat))
    (results : list string) (fs : list future_state) :
  length (set_results batch results fs) = length fs.
Proof.
  revert results fs. induction batch as [|[req f] batch IH]; intros results fs; [done|].
  destruct results as [|r results]; [done|]. cbn [set_results].
  by rewrite IH, set_result_length.
Qed.

Lemma set_exceptions_length (batch : list (list (string * option string) * nat))
    (e : exn) (fs : list future_state) :
  length (set_exceptions batch e fs) = length fs.
Proof.
  revert fs. induction batch as [|[req f] batch IH]; intros fs; [done|].
  cbn [set_exceptions]. by rewrite IH, set_exception_length.
Qed.

Lemma set_results_other (batch : list (list (string * option string) * nat))
    (results : list string) (fs : list future_state) (f : nat) :
  f ∉ map snd batch → set_results batch results fs !! f = fs !! f.
Proof.
  revert results fs. induction batch as [|[req f'] batch IH]; intros results fs Hf; [done|].
  destruct results as [|r results]; [done|]. cbn [set_results].
  cbn [map snd] in Hf. apply not_elem_of_cons in Hf as [Hne Hf].
  rewrite IH by done. by apply set_result_other.
Qed.

Lemma set_exceptions_other (batch : list (list (string * option string) * nat))
    (e : exn) (fs : list future_state) (f : nat) :
  f ∉ map snd batch → set_exceptions batch e fs !! f = fs !! f.
Proof.
  revert fs. induction batch as [|[req f'] batch IH]; intros fs Hf; [done|].
  cbn [set_exceptions]. cbn [map snd] in Hf. apply not_elem_of_cons in Hf as [Hne Hf].
  rewrite IH by done. by apply set_exception_other.
Qed.

(** On success the waiter at position [i] of the batch gets the element at
    position [i] of the results. *)
Lemma set_results_lookup (batch : list (list (string * option string) * nat))
    (results : list string) (fs : list future_state)
    (i : nat) (req : list (string * option string)) (f : nat) (r : string) :
  NoDup (map snd batch) →
  batch !! i = Some (req, f) → results !! i = Some r →
  fs !! f = Some Pending →
  set_results batch results fs !! f = Some (Resolved r).
Proof.
  revert results fs i.
  induction batch as [|[req' f'] batch IH]; intros results fs i Hnd Hb Hr Hf; [done|].
  destruct results as [|r' results]; [by destruct i|].
  cbn [map snd] in Hnd. apply NoDup_cons in Hnd as [Hnotin Hnd].
  cbn [set_results]. destruct i as [|i]; cbn in Hb, Hr.
  - simplify_eq. rewrite set_results_other by done. by apply set_result_pending.
  - apply (IH results _ i); [done..|].
    rewrite set_result_other; [done|]. intros ->. apply Hnotin.
    apply list_elem_of_lookup_2 in Hb.
    apply list_elem_of_In. apply list_elem_of_In in Hb.
    by apply (in_map snd) in Hb.
Qed.

(** On failure every waiter of the batch gets the same exception. *)
Lemma set_exceptions_lookup (batch : list (list (string * option string) * nat))
    (e : exn) (fs : list future_state) (req : list (string * option string)) (f : nat) :
  NoDup (map snd batch) →
  (req, f) ∈ batch →
  fs !! f = Some Pending →
  set_exceptions batch e fs !! f = Some (Rejected e).
Proof.
  revert fs. induction batch as [|[req' f'] batch IH]; intros fs Hnd Hin Hf.
  { by apply elem_of_nil in Hin. }
  cbn [map snd] in Hnd. apply NoDup_cons in Hnd as [Hnotin Hnd].
  cbn [set_exceptions]. apply elem_of_cons in Hin as [Heq|Hin].
  - simplify_eq. rewrite set_exceptions_other by done. by apply set_exception_pending.
  - apply IH; [done..|]. rewrite set_exception_other; [done|]. intros ->. apply Hnotin.
    apply list_elem_of_In. apply list_elem_of_In in Hin.
    by apply (in_map snd) in Hin.
Qed.

Lemma distribute_length (b : RequestBatcher)
    (batch : list (list (string * option string) * nat)) (fs : list future_state) :
  length (distribute b batch fs) = length fs.
Proof.
  unfold distribute. destruct (call_execute_batch b (map fst batch)).
  - apply set_results_length.
  - apply set_exceptions_length.
Qed.

Lemma lookup_map {A B : Type} (f : A → B) (l : list A) (i : nat) (x : A) :
  l !! i = Some x → map f l !! i = Some (f x).
Proof.
  revert i. induction l as [|y l IH]; intros [|i] Hl; try done.
  - by injection Hl as ->.
  - by apply IH.
Qed.

(** *** Slices *)

Lemma slice_to_take {A : Type} (l : list A) (n : Z) : ∃ k, slice_to l n = take k l.
Proof. unfold slice_to. destruct (0 <=? n)%Z; eauto. Qed.

Lemma slice_from_drop {A : Type} (l : list A) (n : Z) : ∃ k, slice_from l n = drop k l.
Proof. unfold slice_from. destruct (0 <=? n)%Z; eauto. Qed.

(** A batch and the rest of the pending list make up the pending list. *)
Lemma slice_to_from {A : Type} (l : list A) (n : Z) : slice_to l n ++ slice_from l n = l.
Proof. unfold slice_to, slice_from. destruct (0 <=? n)%Z; apply take_drop. Qed.

Lemma NoDup_map_take {A B : Type} (f : A → B) (l : list A) (k : nat) :
  NoDup (map f l) → NoDup (map f (take k l)).
Proof.
  intros Hnd. rewrite <- firstn_map.
  eapply sublist_NoDup; [done|apply sublist_take].
Qed.

Lemma NoDup_map_drop {A B : Type} (f : A → B) (l : list A) (k : nat) :
  NoDup (map f l) → NoDup (map f (drop k l)).
Proof.
  intros Hnd. rewrite <- skipn_map.
  eapply sublist_NoDup; [done|apply sublist_drop].
Qed.

Lemma elem_of_map_drop {A B : Type} (f : A → B) (l : list A) (k : nat) (y : B) :
  y ∈ map f (drop k l) → y ∈ map f l.
Proof. rewrite <- skipn_map. apply subseteq_drop. Qed.

(** *** The states a batcher reaches *)

Lemma cancel_fields (t : nat) (w : Loop) :
  batcher (cancel t w) = batcher w ∧ futures (cancel t w) = futures w
  ∧ lock (cancel t w) = lock w ∧ now (cancel t w) = now w
  ∧ length (tasks (cancel t w)) = length (tasks w)
  ∧ ∀ t' batch, tasks (cancel t w) !! t' = Some (Flushing batch) →
                tasks w !! t' = Some (Flushing batch).
Proof.
  unfold cancel. destruct (tasks w !! t) as [[wake|b| |]|] eqn:Ht; bproj; try done.
  split_and!; try done; [by rewrite length_insert|].
  intros t' batch. destruct (decide (t = t')) as [->|Hne].
  - rewrite list_lookup_insert_eq by (by eapply lookup_lt_Some). done.
  - by rewrite list_lookup_insert_ne.
Qed.

Lemma create_task_fields (w : Loop) :
  batcher (create_task w).1 = batcher w ∧ futures (create_task w).1 = futures w
  ∧ lock (create_task w).1 = lock w ∧ now (create_task w).1 = now w
  ∧ (create_task w).2 = length (tasks w)
  ∧ tasks (create_task w).1 = tasks w ++ [Sleeping (now w + batch_window (batcher w))%Q].
Proof. done. Qed.

Lemma lookup_snoc_flushing (ts : list task_state) (d : Q) (t : nat)
    (batch : list (list (string * option string) * nat)) :
  (ts ++ [Sleeping d]) !! t = Some (Flushing batch) → ts !! t = Some (Flushing batch).
Proof.
  intros Hl. destruct (decide (t < length ts)) as [Hlt|Hge].
  - by rewrite lookup_app_l in Hl.
  - rewrite lookup_app_r in Hl by lia.
    destruct (t - length ts) as [|k]; [done|]. by destruct k.
Qed.

Lemma add_request_locked_fields (req : list (string * option string)) (f : nat) (w : Loop) :
  pending_requests (batcher (add_request_locked req f w))
    = pending_requests (batcher w) ++ [(req, f)]
  ∧ futures (add_request_locked req f w) = futures w
  ∧ lock (add_request_locked req f w) = lock w
  ∧ now (add_request_locked req f w) = now w
  ∧ batch_size (batcher (add_request_locked req f w)) = batch_size (batcher w)
  ∧ batch_window (batcher (add_request_locked req f w)) = batch_window (batcher w)
  ∧ _execute_batch (batcher (add_request_locked req f w)) = _execute_batch (batcher w)
  ∧ ∀ t batch, tasks (add_request_locked req f w) !! t = Some (Flushing batch) →
               tasks w !! t = Some (Flushing batch).
Proof.
  unfold add_request_locked. bproj.
  destruct (batch_size (batcher w)
              <=? Z.of_nat (length (pending_requests (batcher w) ++ [(req, f)])))%Z.
  - destruct (_batch_task (batcher w)) as [t0|].
    + pose proof (cancel_fields t0
        (set_batcher (set_pending (pending_requests (batcher w) ++ [(req, f)]) (batcher w)) w))
        as (Hb & Hf & Hl & Hn & _ & Ht).
      unfold create_task. bproj. rewrite Hb, Hf, Hl, Hn. bproj.
      split_and!; try done. intros t batch Hlook.
      apply lookup_snoc_flushing in Hlook. by apply Ht in Hlook.
    + unfold create_task. bproj. split_and!; try done.
      intros t batch Hlook. by apply lookup_snoc_flushing in Hlook.
  - destruct (_batch_task (batcher w)) as [t0|]; bproj; [done|].
    unfold create_task. bproj. split_and!; try done.
    intros t batch Hlook. by apply lookup_snoc_flushing in Hlook.
Qed.

(** With the lock free, [add_request] runs up to [await future]. *)
Lemma add_request_unlocked (req : list (string * option string)) (w : Loop) :
  lock w = None →
  add_request req w
  = Some (set_lock None (add_request_locked req (length (futures w)) (entering w)),
          length (futures w)).
Proof. intros Hlock. unfold add_request, with_lock. bproj. by rewrite Hlock. Qed.

Lemma act_inv (a : action) (w : Loop) : batch_inv w → batch_inv (act a w).
Proof.
  intros Hinv. destruct a as [req|t|t|t|f]; cbn [act].
  - (* Submit *)
    rewrite add_request_unlocked by apply (bi_lock _ Hinv).
    set (w1 := entering w).
    pose proof (add_request_locked_fields req (length (futures w)) w1)
      as (Hp & Hf & _ & _ & _ & _ & _ & Ht).
    destruct Hinv as [Hnd Hbound Hflush Hlock].
    split; bproj.
    + rewrite Hp. subst w1; unfold entering; bproj. rewrite map_app. cbn [map snd].
      apply NoDup_app. split_and!; [done| |apply NoDup_singleton].
      intros f Hin Hin'. apply list_elem_of_singleton in Hin' as ->.
      apply Hbound in Hin. lia.
    + rewrite Hp, Hf. subst w1; unfold entering; bproj.
      rewrite map_app, length_app. cbn [map snd length].
      intros f Hin. apply elem_of_app in Hin as [Hin|Hin].
      * apply Hbound in Hin. lia.
      * apply list_elem_of_singleton in Hin as ->. lia.
    + intros t batch Hlook. apply Ht in Hlook. subst w1; unfold entering in Hlook; bproj.
      by eapply Hflush.
    + done.
  - (* Tick *)
    destruct (Qle_bool (now w) t); [|done]. by destruct Hinv.
  - (* Wake *)
    unfold _process_batch_wake. destruct (tasks w !! t) as [[wake|b| |]|] eqn:Ht; try done.
    destruct (Qle_bool wake (now w)); [|done].
    unfold with_lock. rewrite (bi_lock _ Hinv). cbn [default].
    destruct Hinv as [Hnd Hbound Hflush Hlock].
    unfold _process_batch_locked. bproj.
    destruct (pending_requests (batcher w)) as [|p ps] eqn:Hp.
    + split; bproj.
      * by rewrite Hp.
      * by rewrite Hp.
      * intros t' batch. destruct (decide (t = t')) as [->|Hne].
        -- rewrite list_lookup_insert_eq by (by eapply lookup_lt_Some). done.
        -- rewrite list_lookup_insert_ne by done. apply Hflush.
      * done.
    + rewrite <- Hp in *. clear Hp p ps.
      destruct (slice_to_take (pending_requests (batcher w)) (batch_size (batcher w)))
        as [k1 Hk1].
      destruct (slice_from_drop (pending_requests (batcher w)) (batch_size (batcher w)))
        as [k2 Hk2].
      split; bproj.
      * rewrite Hk2. by apply NoDup_map_drop.
      * rewrite Hk2. intros f Hin. apply elem_of_map_drop in Hin. by apply Hbound.
      * intros t' batch. destruct (decide (t = t')) as [->|Hne].
        -- rewrite list_lookup_insert_eq by (by eapply lookup_lt_Some).
           intros [= <-]. rewrite Hk1. by apply NoDup_map_take.
        -- rewrite list_lookup_insert_ne by done. apply Hflush.
      * done.
  - (* Finish *)
    unfold _process_batch_finish.
    destruct (tasks w !! t) as [[wake|b| |]|] eqn:Ht; try done. cbn [default].
    destruct Hinv as [Hnd Hbound Hflush Hlock].
    split; bproj; try done.
    + rewrite distribute_length. done.
    + intros t' batch. destruct (decide (t = t')) as [->|Hne].
      * rewrite list_lookup_insert_eq by (by eapply lookup_lt_Some). done.
      * rewrite list_lookup_insert_ne by done. apply Hflush.
  - (* GiveUp *)
    unfold cancel_waiter. destruct (futures w !! f) as [[]|]; try done.
    destruct Hinv as [Hnd Hbound Hflush Hlock].
    split; bproj; try done. by rewrite length_insert.
Qed.

Lemma start_inv (B : Z) (W : Q) (impl : option (list (list (string * option string)) → result (list string))) :
  batch_inv (start (with_execute_batch impl (__init__ B W))).
Proof.
  split; cbn; [constructor| |done|done].
  intros f Hf. by apply elem_of_nil in Hf.
Qed.

Lemma run_inv (actions : list action) (w : Loop) : batch_inv w → batch_inv (run actions w).
Proof.
  revert w. induction actions as [|a actions IH]; intros w Hinv; [done|].
  cbn [run fold_left]. apply IH. by apply act_inv.
Qed.

End BatcherFacts.

Module BatcherSpec.
Import Batcher BatcherFacts.

(** C5.  In every state a batcher reaches, when task [t] has taken a batch
    and its physical call ends, the flush completes, and: if
    [_execute_batch] returned [results], the future of the request at
    position [i] of the batch (the list handed to [_execute_batch] is the
    batch's requests in submission order) is resolved with the element at
    position [i] of [results]; if it raised [e], among them when the
    method is missing, the future of every request of the batch is
    rejected with that one [e].  This is for the futures that are still
    pending; a future its waiter cancelled stays cancelled. *)
Theorem batch_outcome_by_position (B : Z) (W : Q)
    (impl : option (list (list (string * option string)) → result (list string)))
    (actions : list action) (t : nat)
    (batch : list (list (string * option string) * nat)) :
  tasks (run actions (start (with_execute_batch impl (__init__ B W)))) !! t
    = Some (Flushing batch) →
  let w := run actions (start (with_execute_batch impl (__init__ B W))) in
  ∃ w', _process_batch_finish t w = Some w'
    ∧ match call_execute_batch (batcher w) (map fst batch) with
      | Ok results =>
          ∀ i req f r,
            batch !! i = Some (req, f) → results !! i = Some r →
            futures w !! f = Some Pending →
            map fst batch !! i = Some req ∧ futures w' !! f = Some (Resolved r)
      | Raise e =>
          ∀ req f,
            (req, f) ∈ batch → futures w !! f = Some Pending →
            futures w' !! f = Some (Rejected e)
      end.
Proof.
  intros Ht w. fold w in Ht.
  assert (batch_inv w) as Hinv by apply run_inv, start_inv.
  pose proof (bi_flush_nodup _ Hinv t batch Ht) as Hnd.
  unfold _process_batch_finish. rewrite Ht. eexists. split; [done|].
  bproj. unfold distribute.
  destruct (call_execute_batch (batcher w) (map fst batch)) as [results|e].
  - intros i req f r Hb Hr Hf. split.
    + by apply (lookup_map fst) in Hb.
    + by eapply set_results_lookup.
  - intros req f Hin Hf. by eapply set_exceptions_lookup.
Qed.

Lemma batch_outcome_by_position_witness :
  tasks (run two_then_wake (start (with_execute_batch (Some echo_urls) (__init__ 2 (1 # 10)))))
    !! 1
  = Some (Flushing [ (repo "https://a.example/x.git", 0); (repo "https://b.example/y.git", 1) ])
  ∧ ∃ w',
      _process_batch_finish 1
        (run two_then_wake (start (with_execute_batch (Some echo_urls) (__init__ 2 (1 # 10)))))
      = Some w'
      ∧ futures w' !! 0 = Some (Resolved "https://a.example/x.git")
      ∧ futures w' !! 1 = Some (Resolved "https://b.example/y.git").
Proof.
  assert (tasks (run two_then_wake
                   (start (with_execute_batch (Some echo_urls) (__init__ 2 (1 # 10))))) !! 1
          = Some (Flushing [ (repo "https://a.example/x.git", 0);
                             (repo "https://b.example/y.git", 1) ])) as Ht
    by (vm_compute; reflexivity).
  split; [exact Ht|].
  destruct (batch_outcome_by_position 2 (1 # 10) (Some echo_urls) two_then_wake 1 _ Ht)
    as (w' & Hfin & Hres).
  exists w'. split; [exact Hfin|].
  split.
  - apply (Hres 0 (repo "https://a.example/x.git") 0 "https://a.example/x.git");
      vm_compute; reflexivity.
  - apply (Hres 1 (repo "https://b.example/y.git") 1 "https://b.example/y.git");
      vm_compute; reflexivity.
Defined.

(** A task that [add_request] creates at time [now] sleeps until
    [now + batch_window], whether or not the append filled the batch. *)
Lemma add_request_schedules_after_window (req : list (string * option string))
    (w w' : Loop) (f : nat) :
  add_request req w = Some (w', f) →
  tasks w' = match _batch_task (batcher w) with
             | Some t =>
                 if (batch_size (batcher w)
                       <=? Z.of_nat (length (pending_requests (batcher w) ++ [(req, f)])))%Z
                 then tasks (cancel t w) ++ [Sleeping (now w + batch_window (batcher w))%Q]
                 else tasks w
             | None => tasks w ++ [Sleeping (now w + batch_window (batcher w))%Q]
             end.
Proof.
  unfold add_request, with_lock. bproj. destruct (lock w); [done|].
  intros [= <- <-]. unfold add_request_locked. bproj.
  destruct (_batch_task (batcher w)) as [t|].
  - destruct (batch_size (batcher w) <=? _)%Z; bproj; [|done].
    unfold create_task, cancel. bproj.
    destruct (tasks w !! t) as [[]|]; bproj; done.
  - destruct (batch_size (batcher w) <=? _)%Z; bproj; done.
Qed.

(** A sleeping task does not take its batch before its wake-up time. *)
Lemma wake_not_before (t : nat) (w : Loop) (wake : Q) :
  tasks w !! t = Some (Sleeping wake) → (now w < wake)%Q → _process_batch_wake t w = None.
Proof.
  intros Ht Hlt. unfold _process_batch_wake. rewrite Ht.
  destruct (Qle_bool wake (now w)) eqn:Hle; [|done].
  apply Qle_bool_iff in Hle. by apply Qlt_not_le in Hlt.
Qed.

(** C4 (the code at the failing input).  Five requests are submitted at
    time 0 to a batcher with [batch_size = 5] and [batch_window = 0.1].  The
    fifth append cancels the scheduled task and creates a new one, which
    starts with [asyncio.sleep(self.batch_window)]: the five requests stay
    pending with their futures unresolved, no task can take the batch
    before time 0.1, and the new task takes it at time 0.1. *)
Theorem full_batch_waits_the_window :
  length (pending_requests (batcher full_batch)) = 5
  ∧ futures full_batch = [Pending; Pending; Pending; Pending; Pending]
  ∧ tasks full_batch = [TaskCancelled; Sleeping (0 + (1 # 10))]
  ∧ _batch_task (batcher full_batch) = Some 1
  ∧ (∀ (t : nat) (at_time : Q),
       (at_time < 1 # 10)%Q → _process_batch_wake t (act (Tick at_time) full_batch) = None)
  ∧ ∃ w', _process_batch_wake 1 (act (Tick (1 # 10)) full_batch) = Some w'
          ∧ pending_requests (batcher w') = []
          ∧ ∃ batch, tasks w' !! 1 = Some (Flushing batch) ∧ length batch = 5.
Proof.
  split; [vm_compute; reflexivity|]. split; [vm_compute; reflexivity|].
  split; [vm_compute; reflexivity|]. split; [vm_compute; reflexivity|].
  split.
  - intros t at_time Hlt.
    assert (tasks (act (Tick at_time) full_batch) = [TaskCancelled; Sleeping (0 + (1 # 10))]
            ∧ (now (act (Tick at_time) full_batch) < 1 # 10)%Q) as [Hts Hnow].
    { cbn [act]. destruct (Qle_bool (now full_batch) at_time); split;
        try (vm_compute; reflexivity). exact Hlt. }
    destruct t as [|[|t]].
    + unfold _process_batch_wake. by rewrite Hts.
    + apply (wake_not_before 1 _ (0 + (1 # 10))); [by rewrite Hts|].
      eapply Qlt_le_trans; [exact Hnow|]. by vm_compute.
    + unfold _process_batch_wake. by rewrite Hts.
  - eexists. split; [vm_compute; reflexivity|].
    split; [reflexivity|]. eexists. split; [reflexivity|reflexivity].
Qed.

(** In every state a batcher reaches nobody holds [self.lock]: it is taken
    and released between two suspension points.  A task sleeping out the
    batch window, a task in its physical call and a caller waiting for
    its future are all suspended without it. *)
Lemma batcher_lock_is_free (B : Z) (W : Q)
    (impl : option (list (list (string * option string)) → result (list string)))
    (actions : list action) :
  lock (run actions (start (with_execute_batch impl (__init__ B W)))) = None.
Proof. apply bi_lock, run_inv, start_inv. Qed.

End BatcherSpec.

Module RepositorySpec.
Import Repository.

(** [__init__] creates no attribute [request_batcher], and no class of the
    manager defines one. *)
Lemma no_request_batcher :
  getattr RepositoryManager__init__ "request_batcher"
  = Raise (AttributeError "'RepositoryManager' object has no attribute 'request_batcher'").
Proof. vm_compute. reflexivity. Qed.

(** C10.  The name [batch_add_repositories] of the class is bound to the
    second definition (line 469).  On a manager as [__init__] leaves it,
    that method raises [AttributeError] for every non-empty list of
    repositories, at the first element and before any request is handed to
    the batcher. *)
Theorem batch_add_repositories_raises (repositories : list (gmap string string)) :
  repositories ≠ [] →
  getattr RepositoryManager__init__ "batch_add_repositories" = Ok (PyFunction 469)
  ∧ batch_add_repositories RepositoryManager__init__ repositories
    = Raise (AttributeError "'RepositoryManager' object has no attribute 'request_batcher'").
Proof.
  intros Hne. split; [vm_compute; reflexivity|].
  destruct repositories as [|repo repositories]; [done|].
  unfold batch_add_repositories. cbn [batch_add_loop].
  by rewrite no_request_batcher.
Qed.

Lemma batch_add_repositories_raises_witness :
  [ ({[ "url" := "https://github.com/holchan/CodeGraphX" ]} : gmap string string) ] ≠ []
  ∧ batch_add_repositories RepositoryManager__init__
      [ ({[ "url" := "https://github.com/holchan/CodeGraphX" ]} : gmap string string) ]
    = Raise (AttributeError "'RepositoryManager' object has no attribute 'request_batcher'").
Proof.
  assert ([ ({[ "url" := "https://github.com/holchan/CodeGraphX" ]} : gmap string string) ]
          ≠ []) as Hne by discriminate.
  split; [exact Hne|].
  exact (proj2 (batch_add_repositories_raises _ Hne)).
Defined.

(** With an empty list the loop body never runs and the method returns. *)
Lemma batch_add_repositories_empty :
  batch_add_repositories RepositoryManager__init__ [] = Ok [].
Proof. reflexivity. Qed.

End RepositorySpec.

Module PoolOpsFacts.
Import Pool PoolFacts PoolOps.

(** Reduce the projections of the environments too. *)
Ltac eproj :=
  cbn [probe_ok connect_error v_probe v_connect venv_at] in *; proj.

Lemma final_cons (k : call) (ks : list call) (s : Sys) :
  final (k :: ks) s = final ks (do_call k s).1.
Proof. reflexivity. Qed.

(** *** Closed connections *)

Lemma get_connection_try_grows (env : Env) (s s' : PoolState) (r : result nat) :
  get_connection_try env s = (s', r) →
  closed s ⊆ closed s' ∧ next_conn s ≤ next_conn s'.
Proof.
  assert (∀ s0 s1 r0, create_if_under_limit env s0 = (s1, r0) →
            closed s0 ⊆ closed s1 ∧ next_conn s0 ≤ next_conn s1) as Hcreate.
  { intros s0 s1 r0. unfold create_if_under_limit, _create_connection.
    destruct (_ <? _)%Z; [|by intros [= <- <-]].
    destruct (connect_error env); intros [= <- <-]; unfold_setters; split; (done || lia). }
  unfold get_connection_try, wait_for_queue_get.
  destruct (timeout s <=? 0)%Z.
  { intros Hrun. apply Hcreate in Hrun. by unfold_setters. }
  destruct (_connection_queue s) as [|c q].
  { intros Hrun. apply Hcreate in Hrun. by unfold_setters. }
  destruct (_validate_connection_sync env (set_queue q s) c).
  - intros [= <- <-]. by unfold_setters.
  - intros Hrun. apply Hcreate in Hrun. unfold_setters.
    destruct Hrun as [Hsub Hle]. split; [|done].
    etrans; [|exact Hsub]. apply union_subseteq_r.
Qed.

(** What [get_connection] returns is open: a dequeued connection passed
    the probe, which a closed one does not, and a created one is new. *)
Lemma get_connection_try_returns_open (env : Env) (s s' : PoolState) (c c' : nat) :
  c ∈ closed s → c < next_conn s →
  get_connection_try env s = (s', Ok c') → c' ≠ c.
Proof.
  intros Hcl Hlt.
  assert (∀ s0 s1, closed s ⊆ closed s0 → next_conn s ≤ next_conn s0 →
            create_if_under_limit env s0 = (s1, Ok c') → c' ≠ c) as Hcreate.
  { intros s0 s1 Hsub Hle. unfold create_if_under_limit, _create_connection.
    destruct (_ <? _)%Z; [|done].
    destruct (connect_error env); [done|]. intros [= <- <-]. lia. }
  unfold get_connection_try, wait_for_queue_get.
  destruct (timeout s <=? 0)%Z; [by apply Hcreate|].
  destruct (_connection_queue s) as [|c0 q]; [by apply Hcreate|].
  unfold _validate_connection_sync. unfold_setters.
  destruct (decide (c0 ∈ closed s)) as [Hin|Hout].
  - apply Hcreate; unfold_setters; [apply union_subseteq_r|done].
  - destruct (probe_ok env c0).
    + intros [= <- <-] ->. done.
    + apply Hcreate; unfold_setters; [apply union_subseteq_r|done].
Qed.

Lemma remove_one_subseteq (c x : nat) (l : list nat) : x ∈ remove_one c l → x ∈ l.
Proof.
  induction l as [|y l IH]; [done|]. cbn [remove_one].
  destruct (decide (y = c)).
  - intros Hin. by right.
  - intros [->|Hin]%elem_of_cons; [by left|]. right. by apply IH.
Qed.

Lemma do_call_retired (k : call) (s : Sys) (c : nat) :
  retired c s → retired c (do_call k s).1.
Proof.
  destruct s as [p out]. intros (Hcl & Hlt & Hout). unfold retired in *. proj.
  destruct k as [env|c0]; unfold do_call; proj.
  - unfold get_connection.
    destruct (get_connection_try env p) as [p1 [c'|e]] eqn:Htry; proj.
    + pose proof (get_connection_try_grows _ _ _ _ Htry) as [Hsub Hle].
      pose proof (get_connection_try_returns_open _ _ _ _ _ Hcl Hlt Htry) as Hne.
      split_and!; [by apply Hsub|lia|].
      intros [->|Hin]%elem_of_cons; done.
    + pose proof (get_connection_try_grows _ _ _ _ Htry) as [Hsub Hle].
      unfold_setters. split_and!; [by apply Hsub|lia|done].
  - unfold return_connection.
    destruct (decide (c0 ∈ _active_connections p)); [destruct (queue_full p)|];
      unfold_setters; split_and!; try done;
      intros Hin; by apply remove_one_subseteq in Hin.
Qed.

Lemma run_retired (ks : list call) (s : Sys) (c : nat) :
  retired c s → Forall (retired c) (run ks s).
Proof.
  revert s. induction ks as [|k ks IH]; intros s Hret; [constructor|].
  cbn [run]. pose proof (do_call_retired k s c Hret) as Hret'.
  destruct (do_call k s) as [s' []]; proj; [|constructor].
  constructor; [done|]. by apply IH.
Qed.

(** *** The counters of [self._metrics] *)

Lemma increment_lookup_ne (name name' : string) (v : Z) (m : gmap string Z) :
  name ≠ name' → Metrics.increment name v m !! name' = m !! name'.
Proof. intros Hne. unfold Metrics.increment. by rewrite lookup_insert_ne. Qed.

Lemma increment_lookup_eq (name : string) (v x : Z) (m : gmap string Z) :
  m !! name = Some x → Metrics.increment name v m !! name = Some (x + v)%Z.
Proof. intros Hm. unfold Metrics.increment. by rewrite lookup_insert_eq, Hm. Qed.

Lemma do_call_metrics_inv (k : call) (s : Sys) :
  metrics_inv (pool_state s) → metrics_inv (pool_state (do_call k s).1).
Proof.
  destruct s as [p out]. proj. intros (Htot & Hact & Herr).
  assert (∀ s0 s1 r0 env, create_if_under_limit env s0 = (s1, r0) →
            metrics_inv s0 → metrics_inv s1) as Hcreate.
  { intros s0 s1 r0 env. unfold create_if_under_limit, _create_connection.
    destruct (_ <? _)%Z; [|by intros [= <- <-]].
    destruct (connect_error env); intros [= <- <-]; [done|].
    intros (Ht & Ha & He). unfold metrics_inv. unfold_setters.
    rewrite (increment_lookup_eq _ _ _ _ Ht), !increment_lookup_ne by done.
    split_and!; [f_equal; lia|done..]. }
  assert (metrics_inv (_metrics_bump "timeouts" p)) as Htimeouts.
  { unfold metrics_inv. unfold_setters. by rewrite !increment_lookup_ne. }
  destruct k as [env|c0]; unfold do_call; proj.
  - assert (∀ p1 r, get_connection_try env p = (p1, r) → metrics_inv p1) as Htry.
    { intros p1 r. unfold get_connection_try, wait_for_queue_get.
      destruct (timeout p <=? 0)%Z; [intros Hrun; by eapply Hcreate|].
      destruct (_connection_queue p) as [|c q]; [intros Hrun; by eapply Hcreate|].
      destruct (_validate_connection_sync env (set_queue q p) c).
      - intros [= <- <-]. by unfold metrics_inv.
      - intros Hrun. eapply Hcreate; [exact Hrun|]. by unfold metrics_inv. }
    unfold get_connection.
    destruct (get_connection_try env p) as [p1 [c'|e]]; proj;
      specialize (Htry _ _ eq_refl); done.
  - unfold return_connection.
    destruct (decide (c0 ∈ _active_connections p)); [|by proj].
    destruct (queue_full p); proj; by unfold metrics_inv.
Qed.

Lemma run_metrics_inv (ks : list call) (s : Sys) :
  metrics_inv (pool_state s) → Forall (λ s', metrics_inv (pool_state s')) (run ks s).
Proof.
  revert s. induction ks as [|k ks IH]; intros s Hinv; [constructor|].
  cbn [run]. pose proof (do_call_metrics_inv k s Hinv) as Hinv'.
  destruct (do_call k s) as [s' []]; proj; [|constructor].
  constructor; [done|]. by apply IH.
Qed.

(** Connections are allocated with increasing numbers. *)
Lemma do_call_fresh (k : call) (s : Sys) :
  (∀ c, c ∈ _active_connections (pool_state s) → c < next_conn (pool_state s)) →
  ∀ c, c ∈ _active_connections (pool_state (do_call k s).1)
       → c < next_conn (pool_state (do_call k s).1).
Proof.
  destruct s as [p out]. proj. intros Hfr.
  assert (∀ env s0 s1 r0, create_if_under_limit env s0 = (s1, r0) →
            (∀ c, c ∈ _active_connections s0 → c < next_conn s0) →
            ∀ c, c ∈ _active_connections s1 → c < next_conn s1) as Hcreate.
  { intros env s0 s1 r0. unfold create_if_under_limit, _create_connection.
    destruct (_ <? _)%Z; [|by intros [= <- <-]].
    destruct (connect_error env); intros [= <- <-]; [done|].
    intros Hs0 c. unfold_setters. intros Hin.
    apply elem_of_union in Hin as [Hin|Hin].
    - apply elem_of_singleton in Hin. lia.
    - apply Hs0 in Hin. lia. }
  destruct k as [env|c0]; unfold do_call; proj.
  - assert (∀ p1 r, get_connection_try env p = (p1, r) →
              ∀ c, c ∈ _active_connections p1 → c < next_conn p1) as Htry.
    { intros p1 r. unfold get_connection_try, wait_for_queue_get.
      destruct (timeout p <=? 0)%Z; [intros Hrun; by eapply Hcreate|].
      destruct (_connection_queue p) as [|c q]; [intros Hrun; by eapply Hcreate|].
      destruct (_validate_connection_sync env (set_queue q p) c).
      - by intros [= <- <-].
      - intros Hrun. eapply Hcreate; [exact Hrun|]. unfold_setters.
        intros x Hx. apply elem_of_difference in Hx as [Hx _]. by apply Hfr. }
    unfold get_connection.
    destruct (get_connection_try env p) as [p1 [c'|e]]; proj;
      specialize (Htry _ _ eq_refl); done.
  - unfold return_connection.
    destruct (decide (c0 ∈ _active_connections p)); [destruct (queue_full p)|]; by proj.
Qed.

Lemma run_fresh (ks : list call) (s : Sys) :
  (∀ c, c ∈ _active_connections (pool_state s) → c < next_conn (pool_state s)) →
  Forall (λ s', ∀ c, c ∈ _active_connections (pool_state s')
                     → c < next_conn (pool_state s')) (run ks s).
Proof.
  revert s. induction ks as [|k ks IH]; intros s Hfr; [constructor|].
  cbn [run]. pose proof (do_call_fresh k s Hfr) as Hfr'.
  destruct (do_call k s) as [s' []]; proj; [|constructor].
  constructor; [done|]. by apply IH.
Qed.

(** A set of numbers below [n] has at most [n] elements. *)
Lemma size_below (X : gset nat) (n : nat) : (∀ c, c ∈ X → c < n) → size X ≤ n.
Proof.
  intros Hlt. rewrite <- (size_set_seq (C:=gset nat) 0 n).
  apply subseteq_size. intros c Hc. apply elem_of_set_seq. split; [lia|].
  by apply Hlt.
Qed.

(** *** [validate_connections] *)

Lemma discard_invalid_cons (c : nat) (l : list nat) (s : PoolState) :
  discard_invalid (c :: l) s
  = discard_invalid l (_metrics_bump "connection_errors" (_close_connection c s)).
Proof. reflexivity. Qed.

Lemma discard_invalid_fields (l : list nat) (s : PoolState) :
  _connection_queue (discard_invalid l s) = _connection_queue s
  ∧ max_connections (discard_invalid l s) = max_connections s
  ∧ timeout (discard_invalid l s) = timeout s
  ∧ next_conn (discard_invalid l s) = next_conn s
  ∧ _active_connections (discard_invalid l s) = _active_connections s ∖ list_to_set l
  ∧ closed (discard_invalid l s) = list_to_set l ∪ closed s.
Proof.
  revert s. induction l as [|c l IH]; intros s.
  - cbn [discard_invalid fold_left list_to_set]. split_and!; try done.
    + by rewrite difference_empty_L.
    + by rewrite union_empty_l_L.
  - rewrite discard_invalid_cons.
    destruct (IH (_metrics_bump "connection_errors" (_close_connection c s)))
      as (Hq & Hm & Ht & Hn & Ha & Hc).
    rewrite Hq, Hm, Ht, Hn, Ha, Hc. unfold_setters. split_and!; try done.
    + cbn [list_to_set]. apply set_eq. intros x.
      rewrite !elem_of_difference, elem_of_union, elem_of_singleton. tauto.
    + cbn [list_to_set]. apply set_eq. intros x.
      rewrite !elem_of_union, elem_of_singleton. tauto.
Qed.

(** With working creations and probes the refill loop ends at capacity. *)
Lemma refill_healthy (env : VEnv) (fuel k : nat) (s : PoolState) :
  (∀ j, v_connect env j = None) → (∀ c, v_probe env c = true) →
  (∀ c, c ∈ _active_connections s → c < next_conn s) →
  (∀ c, c ∈ closed s → c < next_conn s) →
  (max_connections s - Z.of_nat (size (_active_connections s)) ≤ Z.of_nat fuel)%Z →
  ∃ s', refill env fuel k s = Some s'
    ∧ _connection_queue s' = _connection_queue s
    ∧ closed s' = closed s
    ∧ max_connections s' = max_connections s
    ∧ timeout s' = timeout s
    ∧ _active_connections s ⊆ _active_connections s'
    ∧ (∀ c, c ∈ _active_connections s' → c ∈ _active_connections s ∨ next_conn s ≤ c)
    ∧ Z.of_nat (size (_active_connections s'))
      = Z.max (Z.of_nat (size (_active_connections s))) (max_connections s).
Proof.
  intros Hconn Hprobe. revert k s.
  induction fuel as [|fuel IH]; intros k s Hact Hcl Hfuel.
  - cbn [refill]. rewrite (proj2 (Z.ltb_ge _ _)) by lia.
    exists s. split_and!; try done; [by left|lia].
  - cbn [refill].
    destruct (Z.ltb_spec (Z.of_nat (size (_active_connections s))) (max_connections s))
      as [Hlt|Hge]; [|exists s; split_and!; try done; [by left|lia]].
    unfold _create_connection, venv_at. eproj. rewrite Hconn.
    unfold _validate_connection_sync. unfold_setters. eproj.
    rewrite decide_False by (intros Hin; apply Hcl in Hin; lia).
    rewrite Hprobe.
    assert (next_conn s ∉ _active_connections s) as Hnew
      by (intros Hin; apply Hact in Hin; lia).
    set (s1 := mk_pool _ _ _ _ _ _ _ _).
    destruct (IH (S k) s1) as (s' & Hrun & Hq & Hc & Hm & Ht & Hsub & Hnew' & Hsize).
    + subst s1; proj. intros c [->%elem_of_singleton|Hin]%elem_of_union; [lia|].
      apply Hact in Hin. lia.
    + subst s1; proj. intros c Hin. apply Hcl in Hin. lia.
    + subst s1; proj. rewrite size_union by (by apply disjoint_singleton_l).
      rewrite size_singleton. lia.
    + exists s'. subst s1; proj. split_and!; try done.
      * etrans; [|exact Hsub]. apply union_subseteq_r.
      * intros c Hin. apply Hnew' in Hin as [[->%elem_of_singleton|Hin]%elem_of_union|Hge];
          [right; lia|by left|right; lia].
      * rewrite Hsize. rewrite size_union by (by apply disjoint_singleton_l).
        rewrite size_singleton. lia.
Qed.

(** With working creations and failing probes the refill loop goes on for
    ever: each iteration creates a connection and drops it. *)
Lemma refill_stale (env : VEnv) (fuel k : nat) (s : PoolState) :
  (∀ j, v_connect env j = None) →
  (∀ c, next_conn s ≤ c → v_probe env c = false) →
  (Z.of_nat (size (_active_connections s)) < max_connections s)%Z →
  refill env fuel k s = None.
Proof.
  intros Hconn. revert k s. induction fuel as [|fuel IH]; intros k s Hprobe Hlt.
  - cbn [refill]. by rewrite (proj2 (Z.ltb_lt _ _)).
  - cbn [refill]. rewrite (proj2 (Z.ltb_lt _ _)) by done.
    unfold _create_connection, venv_at. eproj. rewrite Hconn.
    assert (_validate_connection_sync
              {| probe_ok := v_probe env; connect_error := None |}
              (set_next_conn (S (next_conn s)) s) (next_conn s) = false) as ->.
    { unfold _validate_connection_sync. destruct (decide _); [done|]. by apply Hprobe. }
    apply IH; unfold_setters; [|done]. intros c Hc. apply Hprobe. lia.
Qed.

(** *** [get_db_connection] *)

(** At capacity with nothing idle every [get_connection] is refused, and
    only counters change. *)
Lemma get_connection_at_capacity (env : Env) (s : PoolState) (x : Z) :
  _connection_queue s = [] →
  (max_connections s ≤ Z.of_nat (size (_active_connections s)))%Z →
  _metrics s !! "timeouts" = Some x →
  ∃ s', get_connection env s
        = (s', Raise (DatabaseError "Failed to get connection: Maximum connections reached"))
    ∧ _connection_queue s' = []
    ∧ _active_connections s' = _active_connections s
    ∧ max_connections s' = max_connections s
    ∧ _metrics s' !! "timeouts" = Some (x + 1)%Z.
Proof.
  intros Hq Hcap Ht. unfold get_connection, get_connection_try, wait_for_queue_get.
  rewrite Hq. eexists.
  assert (create_if_under_limit env (_metrics_bump "timeouts" s)
          = (_metrics_bump "timeouts" s, Raise (DatabaseError "Maximum connections reached")))
    as Hc.
  { unfold create_if_under_limit. unfold_setters. by rewrite (proj2 (Z.ltb_ge _ _)). }
  destruct (timeout s <=? 0)%Z; rewrite Hc; (split; [reflexivity|]); unfold_setters;
    split_and!; try done; by apply increment_lookup_eq.
Qed.

End PoolOpsFacts.

Module PoolOpsSpec.
Import Pool PoolFacts PoolOps PoolOpsFacts.

(** X1.  When every creation works and every probe succeeds,
    [validate_connections] ends with the active set at [max_connections]
    (or as large as it was, if larger), with every connection it had
    still in it, and with the idle queue untouched: the connections it
    creates are put in the active set only. *)
Theorem validate_connections_fills_active_set (env : VEnv) (fuel : nat) (s : PoolState) :
  (∀ j, v_connect env j = None) → (∀ c, v_probe env c = true) →
  (∀ c, c ∈ _active_connections s → c < next_conn s) →
  (∀ c, c ∈ closed s → c < next_conn s) →
  (max_connections s ≤ Z.of_nat fuel)%Z →
  ∃ s', validate_connections env fuel s = Some s'
    ∧ _connection_queue s' = _connection_queue s
    ∧ max_connections s' = max_connections s
    ∧ Z.of_nat (size (_active_connections s'))
      = Z.max (Z.of_nat (size (_active_connections s ∖ closed s))) (max_connections s)
    ∧ _active_connections s ∖ closed s ⊆ _active_connections s'.
Proof.
  intros Hconn Hprobe Hact Hcl Hfuel. unfold validate_connections.
  set (inv := invalid_connections env s).
  assert (∀ c, c ∈ inv ↔ c ∈ _active_connections s ∧ c ∈ closed s) as Hinv.
  { intros c. subst inv. unfold invalid_connections.
    rewrite list_elem_of_filter, elem_of_elements. unfold _validate_connection_sync. eproj.
    rewrite Hprobe. destruct (decide (c ∈ closed s)); split; intros [? ?]; done. }
  destruct (discard_invalid_fields inv s) as (Hq & Hm & Ht & Hn & Ha & Hc).
  assert (_active_connections (discard_invalid inv s) = _active_connections s ∖ closed s)
    as Ha'.
  { rewrite Ha. apply set_eq. intros c.
    rewrite !elem_of_difference, elem_of_list_to_set, Hinv. tauto. }
  destruct (refill_healthy env fuel 0 (discard_invalid inv s) Hconn Hprobe)
    as (s' & Hrun & Hq' & _ & Hm' & _ & Hsub & _ & Hsize).
  - rewrite Ha', Hn. intros c [Hin _]%elem_of_difference. by apply Hact.
  - rewrite Hc, Hn. intros c [Hin%elem_of_list_to_set|Hin]%elem_of_union.
    + apply Hinv in Hin as [Hin _]. by apply Hact.
    + by apply Hcl.
  - rewrite Hm. lia.
  - exists s'. rewrite Hrun, Hq', Hq, Hm', Hsize, Hm, Ha'. split_and!; try done.
    by rewrite <- Ha'.
Qed.

Lemma validate_connections_fills_active_set_witness :
  ∃ s', validate_connections vhealthy 5 pool = Some s'
    ∧ _connection_queue s' = []
    ∧ Z.of_nat (size (_active_connections s')) = 5%Z.
Proof.
  destruct (validate_connections_fills_active_set vhealthy 5 pool)
    as (s' & Hrun & Hq & _ & Hsize & _);
    [done|done|intros c Hc; by apply elem_of_empty in Hc
    |intros c Hc; by apply elem_of_empty in Hc|cbn; lia|].
  exists s'. split_and!; [done|done|]. rewrite Hsize. reflexivity.
Defined.

(** X2.  A pool that is validated right after its construction, as the
    application does at start-up, refuses every later [get_connection]:
    the validation fills the active set with connections that are never
    put in the idle queue. *)
Theorem validated_fresh_pool_refuses_acquire (env : VEnv) (fuel : nat)
    (max_connections timeout : Z) (env' : Env) :
  (∀ j, v_connect env j = None) → (∀ c, v_probe env c = true) →
  (max_connections ≤ Z.of_nat fuel)%Z →
  ∃ s', validate_connections env fuel (__init__ max_connections timeout) = Some s'
    ∧ (get_connection env' s').2
      = Raise (DatabaseError "Failed to get connection: Maximum connections reached").
Proof.
  intros Hconn Hprobe Hfuel.
  destruct (validate_connections_fills_active_set env fuel (__init__ max_connections timeout))
    as (s' & Hrun & Hq & Hmax & Hsize & _);
    [done|done|intros c Hc; by apply elem_of_empty in Hc
    |intros c Hc; by apply elem_of_empty in Hc|done|].
  - exists s'. split; [done|]. cbn [Pool.max_connections __init__] in Hmax, Hsize.
    unfold get_connection, get_connection_try, wait_for_queue_get. rewrite Hq.
    assert (∀ s0, _active_connections s0 = _active_connections s' →
                  Pool.max_connections s0 = Pool.max_connections s' →
                  create_if_under_limit env' s0
                  = (s0, Raise (DatabaseError "Maximum connections reached"))) as Hc.
    { intros s0 Ha Hm. unfold create_if_under_limit. rewrite Ha, Hm, Hmax.
      rewrite (proj2 (Z.ltb_ge _ _)); [done|]. rewrite Hsize. lia. }
    destruct (Pool.timeout s' <=? 0)%Z; by rewrite Hc.
Qed.

Lemma validated_fresh_pool_refuses_acquire_witness :
  ∃ s', validate_connections vhealthy 5 (__init__ 5 30) = Some s'
    ∧ (get_connection healthy s').2
      = Raise (DatabaseError "Failed to get connection: Maximum connections reached").
Proof.
  apply (validated_fresh_pool_refuses_acquire vhealthy 5 5 30 healthy);
    [done|done|cbn; lia].
Defined.

(** X3.  When creations work and the probe of every new connection fails,
    [validate_connections] never leaves its refill loop below capacity:
    whatever the number of iterations allowed, it has not returned. *)
Theorem validate_connections_loops_on_failing_probe (env : VEnv) (fuel : nat)
    (s : PoolState) :
  (∀ j, v_connect env j = None) → (∀ c, v_probe env c = false) →
  (Z.of_nat (size (_active_connections s)) < max_connections s)%Z →
  validate_connections env fuel s = None.
Proof.
  intros Hconn Hprobe Hlt. unfold validate_connections.
  destruct (discard_invalid_fields (invalid_connections env s) s)
    as (_ & Hm & _ & _ & Ha & _).
  apply refill_stale; [done|by intros c _|].
  rewrite Hm, Ha. eapply Z.le_lt_trans; [|exact Hlt].
  apply Nat2Z.inj_le, subseteq_size, subseteq_difference_l. done.
Qed.

Lemma validate_connections_loops_on_failing_probe_witness :
  validate_connections vstale 1000 pool = None.
Proof.
  apply (validate_connections_loops_on_failing_probe vstale 1000 pool);
    [done|done|].
  unfold pool, __init__. proj. rewrite size_empty. lia.
Defined.

(** X4.  A connection that has been closed (by a failed probe in
    [get_connection] or otherwise) and that no caller holds is never
    handed out by any later sequence of [get_connection] and
    [return_connection] calls: it stays closed and out of every caller's
    hands. *)
Theorem closed_connection_is_never_handed_out (ks : list call) (s : Sys) (c : nat) :
  c ∈ closed (pool_state s) → c < next_conn (pool_state s) → c ∉ checked_out s →
  Forall (λ s', c ∈ closed (pool_state s') ∧ c ∉ checked_out s') (run ks s).
Proof.
  intros Hcl Hlt Hout.
  eapply Forall_impl; [apply (run_retired ks s c); by split_and!|].
  intros s' (? & _ & ?). done.
Qed.

Lemma closed_connection_is_never_handed_out_witness :
  Forall (λ s', 0 ∈ closed (pool_state s') ∧ 0 ∉ checked_out s')
         (run [Release 1; Acquire healthy; Acquire healthy; Release 0; Acquire healthy]
              after_stale_probe).
Proof.
  apply (closed_connection_is_never_handed_out _ after_stale_probe 0).
  - apply (bool_decide_unpack _). vm_compute. exact I.
  - vm_compute. lia.
  - apply (bool_decide_unpack _). vm_compute. exact I.
Defined.

(** X5.  A connection that [validate_connections] discards is closed and
    out of the active set when the call returns. *)
Theorem validate_connections_closes_invalid (env : VEnv) (fuel : nat)
    (s s' : PoolState) (c : nat) :
  validate_connections env fuel s = Some s' →
  (∀ c', c' ∈ _active_connections s → c' < next_conn s) →
  c ∈ _active_connections s →
  _validate_connection_sync (venv_at env 0) s c = false →
  c ∈ closed s' ∧ (c ∉ _active_connections s') ∧ (c < next_conn s').
Proof.
  intros Hrun Hact Hin Hbad. unfold validate_connections in Hrun.
  assert (c ∈ invalid_connections env s) as Hinv.
  { unfold invalid_connections. apply list_elem_of_filter. split; [done|].
    by apply elem_of_elements. }
  destruct (discard_invalid_fields (invalid_connections env s) s)
    as (_ & _ & _ & Hn & Ha & Hc).
  assert (∀ fuel k s0 s1, refill env fuel k s0 = Some s1 →
            c ∈ closed s0 → c ∉ _active_connections s0 → c < next_conn s0 →
            c ∈ closed s1 ∧ (c ∉ _active_connections s1) ∧ (c < next_conn s1)) as Hrefill.
  { clear. intros fuel. induction fuel as [|fuel IH]; intros k s0 s1; cbn [refill].
    - destruct (_ <? _)%Z; [done|]. by intros [= <-].
    - destruct (_ <? _)%Z; [|by intros [= <-]].
      unfold _create_connection. destruct (connect_error (venv_at env k)).
      { by intros [= <-]. }
      destruct (_validate_connection_sync _ _ _); intros Hrun Hcl Hna Hlt.
      + apply IH in Hrun; unfold_setters; [done|done| |lia].
        intros Hin. apply elem_of_union in Hin as [Hin|Hin]; [|done].
        apply elem_of_singleton in Hin. lia.
      + apply IH in Hrun; unfold_setters; [done|done|done|lia]. }
  apply (Hrefill _ _ _ _ Hrun).
  - rewrite Hc. apply elem_of_union_l. by apply elem_of_list_to_set.
  - rewrite Ha. intros [_ Hn']%elem_of_difference. apply Hn'. by apply elem_of_list_to_set.
  - rewrite Hn. by apply Hact.
Qed.

Lemma validate_connections_closes_invalid_witness :
  ∃ s', validate_connections vhealthy 5 one_closed_elsewhere = Some s'
    ∧ 1 ∈ closed s' ∧ (1 ∉ _active_connections s') ∧ (1 < next_conn s').
Proof.
  eexists. split; [vm_compute; reflexivity|].
  eapply (validate_connections_closes_invalid vhealthy 5 one_closed_elsewhere _ 1).
  - vm_compute. reflexivity.
  - intros c' Hc'.
    assert (_active_connections one_closed_elsewhere = {[1]}) as Ha.
    { apply set_eq. intros x. vm_compute _active_connections.
      change (x ∈ ({[1]} ∪ (∅ ∖ {[0]}) : gset nat) ↔ x ∈ ({[1]} : gset nat)).
      rewrite elem_of_union, elem_of_difference, elem_of_empty. tauto. }
    rewrite Ha in Hc'. apply elem_of_singleton in Hc' as ->. vm_compute. lia.
  - apply (bool_decide_unpack _). vm_compute. exact I.
  - vm_compute. reflexivity.
Defined.

(** X6.  Along every sequence of [get_connection] and [return_connection]
    calls on a fresh pool, [get_metrics] reports under
    ["total_connections"] the number of connections created so far, which
    bounds ["current_active"], and reports 0 under ["active_connections"]
    and under ["connection_errors"]: neither operation updates these two,
    also when an acquire fails. *)
Theorem get_metrics_counts (max_connections timeout : Z) (ks : list call) :
  Forall (λ s,
            get_metrics (pool_state s) !! "total_connections"
              = Some (Z.of_nat (next_conn (pool_state s)))
            ∧ get_metrics (pool_state s) !! "current_active"
              = Some (Z.of_nat (size (_active_connections (pool_state s))))
            ∧ size (_active_connections (pool_state s)) ≤ next_conn (pool_state s)
            ∧ get_metrics (pool_state s) !! "active_connections" = Some 0%Z
            ∧ get_metrics (pool_state s) !! "connection_errors" = Some 0%Z)
         (run ks (init max_connections timeout)).
Proof.
  assert (metrics_inv (pool_state (init max_connections timeout))) as Hm0.
  { unfold metrics_inv, init, __init__. proj. by split_and!. }
  pose proof (run_metrics_inv ks _ Hm0) as Hm.
  assert (Forall (λ s, ∀ c, c ∈ _active_connections (pool_state s)
                            → c < next_conn (pool_state s))
                 (run ks (init max_connections timeout))) as Hf.
  { apply run_fresh. intros c Hc. by apply elem_of_empty in Hc. }
  rewrite Forall_forall in Hm, Hf. apply Forall_forall. intros s Hs.
  destruct (Hm s Hs) as (Ht & Ha & He). unfold get_metrics.
  split_and!.
  - by rewrite !lookup_insert_ne.
  - by rewrite lookup_insert_ne, lookup_insert_eq.
  - by apply size_below, Hf.
  - by rewrite !lookup_insert_ne.
  - by rewrite !lookup_insert_ne.
Qed.

(** The loop of [get_db_connection] on a pool at capacity with nothing
    idle. *)
Lemma get_db_connection_loop_at_capacity (N : Z) (d : Q) (envs : nat → Env)
    (n attempt : nat) (s : PoolState) (x : Z) :
  1 ≤ n → attempt + n = Z.to_nat N →
  _connection_queue s = [] →
  (max_connections s ≤ Z.of_nat (size (_active_connections s)))%Z →
  _metrics s !! "timeouts" = Some x →
  ∃ s', get_db_connection_loop N d envs n attempt s
        = (s', replicate (n - 1) d,
           EnterRaised (DatabaseError
             ("Failed to get connection after " ++ pretty N
              ++ " attempts: Failed to get connection: Maximum connections reached")))
    ∧ _connection_queue s' = []
    ∧ _active_connections s' = _active_connections s
    ∧ _metrics s' !! "timeouts" = Some (x + Z.of_nat n)%Z.
Proof.
  revert attempt s x. induction n as [|n IH]; intros attempt s x Hn Hsum Hq Hcap Ht; [lia|].
  cbn [get_db_connection_loop].
  destruct (get_connection_at_capacity (envs attempt) s x Hq Hcap Ht)
    as (s1 & -> & Hq1 & Ha1 & Hm1 & Ht1).
  destruct (Z.eqb_spec (Z.of_nat attempt) (N - 1)) as [Heq|Hne].
  - assert (n = 0) as -> by lia. exists s1. cbn [replicate Nat.sub].
    split_and!; first [done | rewrite Ht1; f_equal; lia].
  - destruct (IH (S attempt) s1 (x + 1)%Z) as (s' & -> & Hq' & Ha' & Ht'); try done.
    + lia.
    + lia.
    + by rewrite Hm1, Ha1.
    + exists s'. replace (S n - 1) with (S (n - 1)) by lia. cbn [replicate].
      split_and!; first [done | congruence | rewrite Ht'; f_equal; lia].
Qed.

(** X7.  On a pool at capacity with nothing idle, entering
    [get_db_connection(max_retries, retry_delay)] calls [get_connection]
    [max_retries] times, each waiting out the pool's timeout, sleeps the
    same [retry_delay] after each refusal but the last (there is no
    backoff), leaves the pool as it was, and raises [DatabaseError] with
    the number of attempts and the last refusal in its message. *)
Theorem get_db_connection_gives_up_at_capacity (max_retries : Z) (retry_delay : Q)
    (envs : nat → Env) (s : PoolState) (x : Z) :
  (1 ≤ max_retries)%Z →
  _connection_queue s = [] →
  (max_connections s ≤ Z.of_nat (size (_active_connections s)))%Z →
  _metrics s !! "timeouts" = Some x →
  ∃ s', get_db_connection_enter max_retries retry_delay envs s
        = (s', replicate (Z.to_nat max_retries - 1) retry_delay,
           EnterRaised (DatabaseError
             ("Failed to get connection after " ++ pretty max_retries
              ++ " attempts: Failed to get connection: Maximum connections reached")))
    ∧ _connection_queue s' = []
    ∧ _active_connections s' = _active_connections s
    ∧ _metrics s' !! "timeouts" = Some (x + max_retries)%Z.
Proof.
  intros HN Hq Hcap Ht. unfold get_db_connection_enter.
  destruct (get_db_connection_loop_at_capacity max_retries retry_delay envs
              (Z.to_nat max_retries) 0 s x) as (s' & Hrun & Hq' & Ha' & Ht'); try done; [lia|].
  exists s'. split_and!; first [done | rewrite Ht'; f_equal; lia].
Qed.

Lemma get_db_connection_gives_up_at_capacity_witness :
  ∃ s', get_db_connection_enter 3 (1 # 2) (λ _, healthy) one_slot_taken
        = (s', [1 # 2; 1 # 2],
           EnterRaised (DatabaseError
             "Failed to get connection after 3 attempts: Failed to get connection: Maximum connections reached"))
    ∧ _metrics s' !! "timeouts" = Some 4%Z.
Proof.
  destruct (get_db_connection_gives_up_at_capacity 3 (1 # 2) (λ _, healthy) one_slot_taken 1)
    as (s' & Hrun & _ & _ & Ht); [lia|done| |done|].
  - vm_compute. discriminate.
  - exists s'. split; [exact Hrun|exact Ht].
Defined.

(** X8.  Idle connections are handed out in the order in which they were
    returned: with a positive timeout and live connections in the queue,
    as many [get_connection] calls as there are idle connections return
    the queue from its head on, create no connection and empty the
    queue. *)
Theorem idle_connections_are_reused_in_order (env : Env) (p : PoolState)
    (out : list nat) :
  (0 < timeout p)%Z →
  (∀ c, c ∈ _connection_queue p → (c ∉ closed p) ∧ probe_ok env c = true) →
  checked_out (final (replicate (length (_connection_queue p)) (Acquire env)) (mk_sys p out))
    = reverse (_connection_queue p) ++ out
  ∧ _connection_queue
      (pool_state (final (replicate (length (_connection_queue p)) (Acquire env))
                         (mk_sys p out))) = []
  ∧ next_conn
      (pool_state (final (replicate (length (_connection_queue p)) (Acquire env))
                         (mk_sys p out))) = next_conn p
  ∧ _active_connections
      (pool_state (final (replicate (length (_connection_queue p)) (Acquire env))
                         (mk_sys p out))) = _active_connections p.
Proof.
  remember (_connection_queue p) as q eqn:Hq. revert p out Hq.
  induction q as [|c q IH]; intros p out Hq Ht Hlive.
  - cbn [length replicate final fold_left]. proj. by rewrite <- Hq.
  - cbn [length replicate]. rewrite !final_cons.
    assert ((do_call (Acquire env) (mk_sys p out)).1
            = mk_sys (metrics_increment "connection_success" (set_queue q p)) (c :: out))
      as ->.
    { unfold do_call, get_connection, get_connection_try, wait_for_queue_get. proj.
      rewrite (proj2 (Z.leb_gt _ _)) by done. rewrite <- Hq.
      unfold _validate_connection_sync. unfold_setters.
      destruct (Hlive c) as [Hcl Hok]; [by left|].
      rewrite decide_False by done. by rewrite Hok. }
    destruct (IH (metrics_increment "connection_success" (set_queue q p)) (c :: out))
      as (Hout & Hqueue & Hnext & Hact).
    + done.
    + done.
    + intros c' Hc'. unfold_setters. apply Hlive. by right.
    + rewrite Hout, Hqueue, Hnext, Hact. unfold_setters. split_and!; try done.
      rewrite reverse_cons, <- app_assoc. done.
Qed.

Lemma idle_connections_are_reused_in_order_witness :
  checked_out
    (final (replicate 2 (Acquire healthy))
       (mk_sys (pool_state (final [Acquire healthy; Acquire healthy; Release 1; Release 0]
                                  (mk_sys pool []))) []))
  = [0; 1].
Proof.
  assert (closed (pool_state (final [Acquire healthy; Acquire healthy; Release 1; Release 0]
                                    (mk_sys pool []))) = ∅) as Hc
    by (vm_compute; reflexivity).
  assert (_connection_queue
            (pool_state (final [Acquire healthy; Acquire healthy; Release 1; Release 0]
                               (mk_sys pool []))) = [1; 0]) as Hq
    by (vm_compute; reflexivity).
  destruct (idle_connections_are_reused_in_order healthy
    (pool_state (final [Acquire healthy; Acquire healthy; Release 1; Release 0]
                       (mk_sys pool []))) []) as (Hout & _).
  - vm_compute. reflexivity.
  - intros c _. rewrite Hc. split; [apply not_elem_of_empty|done].
  - rewrite Hq in Hout. exact Hout.
Defined.

(** One scoped acquisition keeps a settled pool settled. *)
Lemma scoped_settled (N : Z) (d : Q) (envs : nat → Env) (s : PoolState) :
  (1 ≤ N)%Z → (0 < timeout s)%Z → (1 ≤ max_connections s)%Z →
  (∀ k c, probe_ok (envs k) c = true) →
  settled s →
  settled (scoped N d envs s) ∧ timeout (scoped N d envs s) = timeout s
  ∧ max_connections (scoped N d envs s) = max_connections s.
Proof.
  intros HN Ht Hm Hprobe (Hq & Ha & Hn & Hc).
  unfold scoped, get_db_connection_enter.
  destruct (Z.to_nat N) as [|n] eqn:HNn; [lia|]. cbn [get_db_connection_loop].
  unfold get_connection, get_connection_try, wait_for_queue_get.
  rewrite (proj2 (Z.leb_gt _ _)) by done. rewrite Hq.
  unfold _validate_connection_sync. unfold_setters. rewrite Hc.
  rewrite decide_False by apply not_elem_of_empty. rewrite Hprobe.
  unfold get_db_connection_exit, return_connection. unfold_setters. rewrite Ha.
  rewrite decide_True by (by apply elem_of_singleton).
  unfold queue_full. proj.
  destruct (max_connections s <=? 0)%Z eqn:Hle; [apply Z.leb_le in Hle; lia|].
  rewrite (proj2 (Z.leb_gt _ _)) by (cbn; lia). proj.
  unfold settled. unfold_setters. by split_and!.
Qed.

(** The first scoped acquisition on an empty pool creates connection 0 and
    leaves it idle. *)
Lemma scoped_fresh (N : Z) (d : Q) (envs : nat → Env) (s : PoolState) :
  (1 ≤ N)%Z → (1 ≤ max_connections s)%Z →
  (∀ k, connect_error (envs k) = None) →
  _connection_queue s = [] → _active_connections s = ∅ →
  next_conn s = 0 → closed s = ∅ →
  settled (scoped N d envs s) ∧ timeout (scoped N d envs s) = timeout s
  ∧ max_connections (scoped N d envs s) = max_connections s.
Proof.
  intros HN Hm Hconn Hq Ha Hn Hc.
  unfold scoped, get_db_connection_enter.
  destruct (Z.to_nat N) as [|n] eqn:HNn; [lia|]. cbn [get_db_connection_loop].
  unfold get_connection, get_connection_try, wait_for_queue_get. rewrite Hq.
  replace (if (timeout s <=? 0)%Z then None else None) with (@None (nat * PoolState))
    by (by destruct (timeout s <=? 0)%Z).
  unfold create_if_under_limit, _create_connection. unfold_setters.
  rewrite Ha, size_empty. rewrite (proj2 (Z.ltb_lt _ _)) by lia.
  rewrite Hconn. unfold_setters.
  unfold get_db_connection_exit, return_connection. unfold_setters.
  rewrite decide_True by (apply elem_of_union_l; by apply elem_of_singleton).
  unfold queue_full. proj. rewrite Hq.
  destruct (max_connections s <=? 0)%Z eqn:Hle; [apply Z.leb_le in Hle; lia|].
  rewrite (proj2 (Z.leb_gt _ _)) by (cbn; lia). proj.
  unfold settled. unfold_setters. rewrite Hn, Hc.
  split_and!; first [done | by rewrite union_empty_r_L].
Qed.

(** X9.  Scoped acquisitions that follow one another on a fresh pool all
    use one connection: after any number of [async with
    get_db_connection()] blocks whose bodies end normally, the pool has
    created connection 0 only, and it is idle. *)
Theorem sequential_scopes_share_one_connection (N : Z) (d : Q) (envs : nat → Env)
    (max_connections timeout : Z) (n : nat) :
  (1 ≤ N)%Z → (0 < timeout)%Z → (1 ≤ max_connections)%Z →
  (∀ k, connect_error (envs k) = None) →
  (∀ k c, probe_ok (envs k) c = true) →
  1 ≤ n →
  settled (after_scopes N d envs n (__init__ max_connections timeout)).
Proof.
  intros HN Ht Hm Hconn Hprobe Hn.
  assert (settled (scoped N d envs (__init__ max_connections timeout))
          ∧ Pool.timeout (scoped N d envs (__init__ max_connections timeout)) = timeout
          ∧ Pool.max_connections (scoped N d envs (__init__ max_connections timeout))
            = max_connections) as Hfirst.
  { apply (scoped_fresh N d envs (__init__ max_connections timeout)); done. }
  destruct n as [|n]; [lia|]. clear Hn. unfold after_scopes.
  assert (settled (Nat.iter (S n) (scoped N d envs) (__init__ max_connections timeout))
          ∧ Pool.timeout (Nat.iter (S n) (scoped N d envs) (__init__ max_connections timeout))
            = timeout
          ∧ Pool.max_connections
              (Nat.iter (S n) (scoped N d envs) (__init__ max_connections timeout))
            = max_connections) as [Hs _]; [|exact Hs].
  induction n as [|n IH]; [exact Hfirst|].
  destruct IH as (Hs & Ht' & Hm').
  change (Nat.iter (S (S n)) (scoped N d envs) (__init__ max_connections timeout))
    with (scoped N d envs
            (Nat.iter (S n) (scoped N d envs) (__init__ max_connections timeout))).
  destruct (scoped_settled N d envs
              (Nat.iter (S n) (scoped N d envs) (__init__ max_connections timeout)))
    as (Hs2 & Ht2 & Hm2); [done|lia|lia|done|done|].
  split_and!; [done|congruence|congruence].
Qed.

Lemma sequential_scopes_share_one_connection_witness :
  settled (after_scopes 3 (1 # 2) (λ _, healthy) 4 pool).
Proof.
  apply (sequential_scopes_share_one_connection 3 (1 # 2) (λ _, healthy) 5 30 4);
    [lia|lia|lia|done|done|lia].
Defined.

End PoolOpsSpec.

Module RetryExtra.
Import Retry RetryFacts RetrySpec.

(** X10.  When the first [k] attempts fail with an [httpx.HTTPError] and
    attempt [k] succeeds, with [k] below [max_retries], both retry loops
    return the response of attempt [k], having run the operation [k + 1]
    times and slept after each of the [k] failures. *)
Theorem retry_returns_first_success (self : AsyncHTTPClient) (cfg : RetryConfig)
    (op : operation) (k : nat) (r : response) :
  (∀ j, j < k → ∃ e, op j = Raise e ∧ is_HTTPError e = true) →
  op k = Ok r →
  ((Z.of_nat k < max_retries self)%Z →
   _request_with_retry self op
   = (backoff_events (client_delay self) 0 k ++ [Attempt k], Ok (Some r)))
  ∧ ((Z.of_nat k < cfg_max_retries cfg)%Z →
     _make_request_with_retry cfg op
     = Some (backoff_events (manager_delay cfg) 0 k ++ [Attempt k], Ok (Some r))).
Proof.
  intros Hfail Hop. split; intros Hk.
  - unfold _request_with_retry.
    replace (Z.to_nat (max_retries self))
      with (k + S (Z.to_nat (max_retries self) - S k)) by lia.
    rewrite request_loop_prefix; [|intros j Hj; apply Hfail; lia|lia].
    cbn [Nat.add _request_with_retry_loop]. by rewrite Hop.
  - unfold _make_request_with_retry.
    replace (Z.to_nat (cfg_max_retries cfg))
      with (k + S (Z.to_nat (cfg_max_retries cfg) - S k)) by lia.
    change 0%Z with (Z.of_nat 0).
    rewrite make_request_loop_prefix; [|intros j Hj; apply Hfail; lia|lia].
    cbn [Nat.add _make_request_with_retry_loop].
    rewrite (proj2 (Z.ltb_lt _ _)) by lia. by rewrite Nat2Z.id, Hop.
Qed.

Lemma retry_returns_first_success_witness :
  _request_with_retry (AsyncHTTPClient__init__ 3) fails_twice_then_ok
  = ([Attempt 0; Sleep (1 * inject_Z (2 ^ Z.of_nat 0));
      Attempt 1; Sleep (1 * inject_Z (2 ^ Z.of_nat 1)); Attempt 2],
     Ok (Some (mk_response 200 "ok"))).
Proof.
  assert (∀ j, j < 2 → ∃ e, fails_twice_then_ok j = Raise e ∧ is_HTTPError e = true) as Hfail.
  { intros [|[|j]] Hj; [| |lia]; exists connect_error; split; reflexivity. }
  destruct (retry_returns_first_success (AsyncHTTPClient__init__ 3) default_retry
              fails_twice_then_ok 2 (mk_response 200 "ok") Hfail eq_refl) as [Ha _].
  apply Ha. cbn. lia.
Defined.

(** X11.  With [max_retries <= 0] neither loop runs the operation: the
    function falls off its end and returns [None] instead of a response
    or an error. *)
Theorem retry_without_attempts_returns_None (self : AsyncHTTPClient) (cfg : RetryConfig)
    (op : operation) :
  ((max_retries self ≤ 0)%Z → _request_with_retry self op = ([], Ok None))
  ∧ ((cfg_max_retries cfg ≤ 0)%Z → _make_request_with_retry cfg op = Some ([], Ok None)).
Proof.
  split; intros Hle.
  - unfold _request_with_retry. by replace (Z.to_nat (max_retries self)) with 0 by lia.
  - unfold _make_request_with_retry.
    replace (Z.to_nat (cfg_max_retries cfg)) with 0 by lia.
    cbn [_make_request_with_retry_loop]. by rewrite (proj2 (Z.ltb_ge _ _)).
Qed.

Lemma retry_without_attempts_returns_None_witness :
  _request_with_retry (AsyncHTTPClient__init__ 0) always_fails = ([], Ok None)
  ∧ _make_request_with_retry (mk_retry_config (-1) (1 # 2) 2 10) always_fails
    = Some ([], Ok None).
Proof.
  destruct (retry_without_attempts_returns_None (AsyncHTTPClient__init__ 0)
              (mk_retry_config (-1) (1 # 2) 2 10) always_fails) as [Ha Hb].
  split; [apply Ha|apply Hb]; cbn; lia.
Defined.

(** The sum of a doubling backoff. *)
Lemma total_doubling (d : Q) (a n : nat) :
  (total (map (λ i, d * inject_Z (2 ^ Z.of_nat i)) (seq a n))
   == d * inject_Z (2 ^ Z.of_nat a) * (inject_Z (2 ^ Z.of_nat n) - 1))%Q.
Proof.
  revert a. induction n as [|n IH]; intros a.
  - cbn [seq map total fold_right]. change (2 ^ Z.of_nat 0)%Z with 1%Z. ring.
  - cbn [seq map total fold_right]. fold (total (map (λ i, (d * inject_Z (2 ^ Z.of_nat i))%Q)
                                                     (seq (S a) n))).
    rewrite IH.
    replace (2 ^ Z.of_nat (S a))%Z with (2 * 2 ^ Z.of_nat a)%Z
      by (rewrite Nat2Z.inj_succ, Z.pow_succ_r by lia; lia).
    replace (2 ^ Z.of_nat (S n))%Z with (2 * 2 ^ Z.of_nat n)%Z
      by (rewrite Nat2Z.inj_succ, Z.pow_succ_r by lia; lia).
    rewrite !inject_Z_mult. ring.
Qed.

(** X12.  When all [N = max_retries >= 1] attempts of
    [_request_with_retry] fail with an HTTP error, the time slept in all
    is [retry_delay * (2^(N-1) - 1)]: it doubles with every further
    attempt allowed. *)
Theorem client_backoff_total (self : AsyncHTTPClient) (op : operation) :
  (1 ≤ max_retries self)%Z →
  (∀ k, k < Z.to_nat (max_retries self) → ∃ e, op k = Raise e ∧ is_HTTPError e = true) →
  (total (sleeps (_request_with_retry self op).1)
   == retry_delay self * (inject_Z (2 ^ (max_retries self - 1)) - 1))%Q.
Proof.
  intros Hpos Hfail.
  destruct (request_all_fail self op Hpos Hfail) as (e & _ & ->). cbn [fst].
  rewrite sleeps_app, sleeps_backoff_events. cbn [sleeps]. rewrite app_nil_r.
  unfold client_delay. rewrite total_doubling.
  change (2 ^ Z.of_nat 0)%Z with 1%Z.
  replace (Z.of_nat (Z.to_nat (max_retries self) - 1)) with (max_retries self - 1)%Z by lia.
  ring.
Qed.

Lemma client_backoff_total_witness :
  (total (sleeps (_request_with_retry (AsyncHTTPClient__init__ 5) always_fails).1) == 15)%Q.
Proof.
  assert (∀ k, k < Z.to_nat (max_retries (AsyncHTTPClient__init__ 5)) →
               ∃ e, always_fails k = Raise e ∧ is_HTTPError e = true) as Hfail.
  { intros k _. exists connect_error. split; reflexivity. }
  rewrite (client_backoff_total (AsyncHTTPClient__init__ 5) always_fails); [|cbn; lia|exact Hfail].
  reflexivity.
Defined.



End RetryExtra.

Module BatcherExtra.
Import Batcher BatcherFacts BatcherSpec.

(** *** A future is set once *)

Lemma set_result_done (f f' : nat) (v : string) (fs : list future_state) (st : future_state) :
  fs !! f = Some st → done st = true → set_result f' v fs !! f = Some st.
Proof.
  intros Hf Hd. destruct (decide (f = f')) as [<-|Hne].
  - unfold set_result. by rewrite Hf, Hd.
  - by rewrite set_result_other.
Qed.

Lemma set_exception_done (f f' : nat) (e : exn) (fs : list future_state) (st : future_state) :
  fs !! f = Some st → done st = true → set_exception f' e fs !! f = Some st.
Proof.
  intros Hf Hd. destruct (decide (f = f')) as [<-|Hne].
  - unfold set_exception. by rewrite Hf, Hd.
  - by rewrite set_exception_other.
Qed.

Lemma distribute_done (b : RequestBatcher) (batch : list (list (string * option string) * nat))
    (fs : list future_state) (f : nat) (st : future_state) :
  fs !! f = Some st → done st = true → distribute b batch fs !! f = Some st.
Proof.
  intros Hf Hd. unfold distribute.
  destruct (call_execute_batch b (map fst batch)) as [results|e].
  - revert results fs Hf. induction batch as [|[req f'] batch IH]; intros results fs Hf; [done|].
    destruct results as [|r results]; [done|]. cbn [set_results].
    apply IH. by apply set_result_done.
  - revert fs Hf. induction batch as [|[req f'] batch IH]; intros fs Hf; [done|].
    cbn [set_exceptions]. apply IH. by apply set_exception_done.
Qed.

Lemma act_done (a : action) (w : Loop) (f : nat) (st : future_state) :
  futures w !! f = Some st → done st = true → futures (act a w) !! f = Some st.
Proof.
  intros Hf Hd. destruct a as [req|t|t|t|f']; cbn [act].
  - unfold add_request, with_lock. bproj. destruct (lock w); [done|]. bproj.
    destruct (add_request_locked_fields req (length (futures w))
                (set_lock (Some (Caller (length (futures w))))
                   (set_futures (futures w ++ [Pending]) w))) as (_ & -> & _).
    bproj. rewrite lookup_app_l; [done|]. by eapply lookup_lt_Some.
  - by destruct (Qle_bool (now w) t).
  - unfold _process_batch_wake. destruct (tasks w !! t) as [[wake|b| |]|]; try done.
    destruct (Qle_bool wake (now w)); [|done].
    unfold with_lock. destruct (lock w); [done|]. bproj.
    unfold _process_batch_locked. bproj.
    by destruct (pending_requests (batcher w)).
  - unfold _process_batch_finish. destruct (tasks w !! t) as [[wake|b| |]|]; try done.
    bproj. by apply distribute_done.
  - unfold cancel_waiter. destruct (futures w !! f') as [[]|] eqn:Hf'; try done.
    bproj. rewrite list_lookup_insert_ne; [done|]. intros <-.
    rewrite Hf in Hf'. by injection Hf' as ->.
Qed.

(** X14.  A future is set once: when it is resolved, rejected or
    cancelled, nothing that happens to the batcher afterwards (further
    submissions, flushes that succeed or fail, cancellations) changes
    it. *)
Theorem future_is_set_once (actions : list action) (w : Loop) (f : nat)
    (st : future_state) :
  futures w !! f = Some st → done st = true →
  futures (run actions w) !! f = Some st.
Proof.
  revert w. induction actions as [|a actions IH]; intros w Hf Hd; [done|].
  cbn [run fold_left]. apply IH; [|done]. by apply act_done.
Qed.

Lemma future_is_set_once_witness :
  futures
    (run [Submit (repo "https://c.example/z.git"); GiveUp 0; Finish 1; GiveUp 1]
       (run (two_then_wake ++ [Finish 1])
            (start (with_execute_batch (Some echo_urls) (__init__ 2 (1 # 10)))))) !! 0
  = Some (Resolved "https://a.example/x.git").
Proof.
  apply future_is_set_once; [vm_compute; reflexivity|reflexivity].
Defined.

(** *** One flush at a time *)

Lemma lookup_snoc_sleeping (ts : list task_state) (d wake : Q) (t : nat) :
  (ts ++ [Sleeping d]) !! t = Some (Sleeping wake) →
  ts !! t = Some (Sleeping wake) ∨ t = length ts.
Proof.
  intros Hl. destruct (decide (t < length ts)) as [Hlt|Hge].
  - left. by rewrite lookup_app_l in Hl.
  - right. rewrite lookup_app_r in Hl by lia.
    destruct (t - length ts) as [|k] eqn:Hk; [lia|]. by destruct k.
Qed.

Lemma cancel_sleeping (t0 t : nat) (w : Loop) (wake : Q) :
  tasks (cancel t0 w) !! t = Some (Sleeping wake) →
  tasks w !! t = Some (Sleeping wake) ∧ t ≠ t0.
Proof.
  unfold cancel. destruct (tasks w !! t0) as [[wake0|b| |]|] eqn:Ht0; bproj.
  - destruct (decide (t0 = t)) as [<-|Hne].
    + rewrite list_lookup_insert_eq by (by eapply lookup_lt_Some). done.
    + rewrite list_lookup_insert_ne by done. intros Ht. split; [done|]. by intros ->.
  - intros Ht. split; [done|]. intros ->. by rewrite Ht0 in Ht.
  - intros Ht. split; [done|]. intros ->. by rewrite Ht0 in Ht.
  - intros Ht. split; [done|]. intros ->. by rewrite Ht0 in Ht.
  - intros Ht. split; [done|]. intros ->. by rewrite Ht0 in Ht.
Qed.

Lemma act_sleeping_inv (a : action) (w : Loop) : sleeping_inv w → sleeping_inv (act a w).
Proof.
  intros Hinv. destruct a as [req|t|t|t|f]; cbn [act].
  - unfold add_request, with_lock. bproj. destruct (lock w); [done|]. bproj.
    unfold add_request_locked. bproj.
    destruct (batch_size (batcher w) <=? _)%Z.
    + destruct (_batch_task (batcher w)) as [t0|] eqn:Hbt.
      * unfold create_task. bproj. intros t wake Ht. unfold sleeping_inv in Hinv.
        destruct (cancel_fields t0
          (set_batcher (set_pending (pending_requests (batcher w)
             ++ [(req, length (futures w))]) (batcher w))
             (set_lock (Some (Caller (length (futures w))))
                (set_futures (futures w ++ [Pending]) w)))) as (Hb & _ & _ & _ & Hlen & _).
        rewrite Hb in *. bproj.
        apply lookup_snoc_sleeping in Ht as [Ht| ->]; [|done].
        apply cancel_sleeping in Ht as [Ht Hne]. bproj.
        apply Hinv in Ht. congruence.
      * unfold create_task. bproj. intros t wake Ht.
        apply lookup_snoc_sleeping in Ht as [Ht| ->]; [|done].
        apply Hinv in Ht. congruence.
    + destruct (_batch_task (batcher w)) as [t0|] eqn:Hbt; bproj.
      * intros t wake Ht. bproj. rewrite Hbt. apply Hinv in Ht. congruence.
      * unfold create_task. bproj. intros t wake Ht.
        apply lookup_snoc_sleeping in Ht as [Ht| ->]; [|done].
        apply Hinv in Ht. congruence.
  - by destruct (Qle_bool (now w) t).
  - unfold _process_batch_wake. destruct (tasks w !! t) as [[wake|b| |]|] eqn:Ht; try done.
    destruct (Qle_bool wake (now w)); [|done].
    unfold with_lock. destruct (lock w); [done|]. bproj.
    unfold _process_batch_locked. bproj.
    pose proof (Hinv t wake Ht) as Hbt.
    destruct (pending_requests (batcher w)); bproj; intros t' wake' Ht'; bproj.
    + destruct (decide (t = t')) as [<-|Hne].
      * by rewrite list_lookup_insert_eq in Ht' by (by eapply lookup_lt_Some).
      * rewrite list_lookup_insert_ne in Ht' by done. apply Hinv in Ht'. congruence.
    + destruct (decide (t = t')) as [<-|Hne].
      * by rewrite list_lookup_insert_eq in Ht' by (by eapply lookup_lt_Some).
      * rewrite list_lookup_insert_ne in Ht' by done. apply Hinv in Ht'. congruence.
  - unfold _process_batch_finish. destruct (tasks w !! t) as [[wake|b| |]|] eqn:Ht; try done.
    bproj. intros t' wake' Ht'. bproj.
    destruct (decide (t = t')) as [<-|Hne].
    + by rewrite list_lookup_insert_eq in Ht' by (by eapply lookup_lt_Some).
    + rewrite list_lookup_insert_ne in Ht' by done. by apply Hinv in Ht'.
  - unfold cancel_waiter. by destruct (futures w !! f) as [[]|].
Qed.

Lemma run_sleeping_inv (actions : list action) (w : Loop) :
  sleeping_inv w → sleeping_inv (run actions w).
Proof.
  revert w. induction actions as [|a actions IH]; intros w Hinv; [done|].
  cbn [run fold_left]. apply IH. by apply act_sleeping_inv.
Qed.

(** X15.  In every state a batcher reaches at most one [_process_batch]
    task is sleeping out the batch window, and it is the task
    [self._batch_task] names. *)
Theorem one_flush_scheduled (B : Z) (W : Q)
    (impl : option (list (list (string * option string)) → result (list string)))
    (actions : list action) (t1 t2 : nat) (wake1 wake2 : Q) :
  tasks (run actions (start (with_execute_batch impl (__init__ B W)))) !! t1
    = Some (Sleeping wake1) →
  tasks (run actions (start (with_execute_batch impl (__init__ B W)))) !! t2
    = Some (Sleeping wake2) →
  t1 = t2
  ∧ _batch_task (batcher (run actions (start (with_execute_batch impl (__init__ B W)))))
    = Some t1.
Proof.
  intros H1 H2.
  assert (sleeping_inv (run actions (start (with_execute_batch impl (__init__ B W)))))
    as Hinv by (apply run_sleeping_inv; by intros t wake Ht).
  pose proof (Hinv _ _ H1) as Hb1. pose proof (Hinv _ _ H2) as Hb2.
  split; [congruence|done].
Qed.

Lemma one_flush_scheduled_witness :
  _batch_task (batcher full_batch) = Some 1.
Proof.
  apply (one_flush_scheduled 5 (1 # 10) None five_submits 1 1 (0 + (1 # 10)) (0 + (1 # 10))).
  - vm_compute. reflexivity.
  - vm_compute. reflexivity.
Defined.

(** *** What a flush takes, and what it leaves *)

(** X16.  With [batch_size >= 0], a flush that finds requests pending
    takes the first [batch_size] of them (all, if there are fewer) in
    submission order, leaves the others pending in their order, and
    clears [self._batch_task]. *)
Theorem flush_takes_the_head (t : nat) (w w' : Loop) :
  _process_batch_wake t w = Some w' →
  pending_requests (batcher w) ≠ [] →
  (0 ≤ batch_size (batcher w))%Z →
  ∃ batch, tasks w' !! t = Some (Flushing batch)
    ∧ batch ++ pending_requests (batcher w') = pending_requests (batcher w)
    ∧ length batch
      = Nat.min (Z.to_nat (batch_size (batcher w))) (length (pending_requests (batcher w)))
    ∧ _batch_task (batcher w') = None.
Proof.
  unfold _process_batch_wake. destruct (tasks w !! t) as [[wake|b| |]|] eqn:Ht; try done.
  destruct (Qle_bool wake (now w)); [|done].
  unfold with_lock. destruct (lock w); [done|]. intros [= <-] Hne HB. bproj.
  unfold _process_batch_locked. bproj.
  destruct (pending_requests (batcher w)) as [|p ps] eqn:Hp; [done|]. bproj.
  exists (slice_to (p :: ps) (batch_size (batcher w))). split_and!.
  - apply list_lookup_insert_eq. by eapply lookup_lt_Some.
  - apply slice_to_from.
  - unfold slice_to. rewrite (proj2 (Z.leb_le _ _)) by done. apply length_take.
  - done.
Qed.

Lemma flush_takes_the_head_witness :
  ∃ w' batch,
    _process_batch_wake 2 three_for_two = Some w'
    ∧ tasks w' !! 2 = Some (Flushing batch)
    ∧ length batch = 2
    ∧ length (pending_requests (batcher w')) = 1.
Proof.
  destruct (_process_batch_wake 2 three_for_two) as [w'|] eqn:Hw;
    [|vm_compute in Hw; discriminate].
  destruct (flush_takes_the_head 2 three_for_two w' Hw) as (batch & Ht & Happ & Hlen & _).
  - vm_compute. discriminate.
  - vm_compute. discriminate.
  - assert (length (pending_requests (batcher three_for_two)) = 3) as H3
      by (vm_compute; reflexivity).
    assert (Z.to_nat (batch_size (batcher three_for_two)) = 2) as H2
      by (vm_compute; reflexivity).
    rewrite H3, H2 in Hlen. rewrite <- Happ, length_app in H3.
    exists w', batch. split_and!; [done|done|exact Hlen|].
    rewrite Hlen in H3. cbn in Hlen. lia.
Defined.

(** X17.  Requests beyond [batch_size] are left without a flush: when a
    flush of a batcher leaves requests pending, no task is sleeping and
    [self._batch_task] is [None], so whatever time passes no task takes
    them; they wait for the next [add_request]. *)
Theorem excess_requests_are_stranded (B : Z) (W : Q)
    (impl : option (list (list (string * option string)) → result (list string)))
    (actions : list action) (t : nat) (w' : Loop) :
  _process_batch_wake t (run actions (start (with_execute_batch impl (__init__ B W))))
    = Some w' →
  pending_requests (batcher w') ≠ [] →
  _batch_task (batcher w') = None
  ∧ ∀ (t' : nat) (later : Q), _process_batch_wake t' (set_now later w') = None.
Proof.
  intros Hwake Hleft.
  set (w := run actions (start (with_execute_batch impl (__init__ B W)))) in *.
  assert (sleeping_inv w) as Hinv by (apply run_sleeping_inv; by intros t0 wake Ht).
  assert (sleeping_inv w') as Hinv'.
  { pose proof (act_sleeping_inv (Wake t) w Hinv) as H. cbn [act] in H.
    by rewrite Hwake in H. }
  assert (_batch_task (batcher w') = None) as Hnone.
  { revert Hwake Hleft. unfold _process_batch_wake.
    destruct (tasks w !! t) as [[wake|b| |]|]; try done.
    destruct (Qle_bool wake (now w)); [|done].
    unfold with_lock. destruct (lock w); [done|]. intros [= <-]. bproj.
    unfold _process_batch_locked. bproj.
    destruct (pending_requests (batcher w)) as [|p ps] eqn:Hp; bproj; [|done].
    by rewrite Hp. }
  split; [done|]. intros t' later. unfold _process_batch_wake. bproj.
  destruct (tasks w' !! t') as [[wake|b| |]|] eqn:Ht'; try done.
  apply Hinv' in Ht'. congruence.
Qed.

Lemma excess_requests_are_stranded_witness :
  ∃ w', _process_batch_wake 2
          (run three_then_tick (start (with_execute_batch None (__init__ 2 (1 # 10)))))
        = Some w'
    ∧ _batch_task (batcher w') = None
    ∧ ∀ (t' : nat) (later : Q), _process_batch_wake t' (set_now later w') = None.
Proof.
  assert (match _process_batch_wake 2
                  (run three_then_tick (start (with_execute_batch None (__init__ 2 (1 # 10)))))
          with
          | Some w0 => pending_requests (batcher w0) ≠ []
          | None => False
          end) as Hleft by (vm_compute; discriminate).
  destruct (_process_batch_wake 2
              (run three_then_tick (start (with_execute_batch None (__init__ 2 (1 # 10))))))
    as [w'|] eqn:Hw; [|done].
  exists w'. split; [done|].
  exact (excess_requests_are_stranded 2 (1 # 10) None three_then_tick 2 w' Hw Hleft).
Defined.

(** *** The window runs from the first request *)

Lemma act_below_size (a : action) (w : Loop) (wake : Q) :
  submission a = true →
  lock w = None →
  tasks w = [Sleeping wake] → _batch_task (batcher w) = Some 0 →
  (Z.of_nat (length (pending_requests (batcher w)) + length (requests_of [a]))
   < batch_size (batcher w))%Z →
  lock (act a w) = None
  ∧ tasks (act a w) = [Sleeping wake] ∧ _batch_task (batcher (act a w)) = Some 0
  ∧ batch_size (batcher (act a w)) = batch_size (batcher w)
  ∧ map fst (pending_requests (batcher (act a w)))
    = map fst (pending_requests (batcher w)) ++ requests_of [a]
  ∧ length (futures (act a w)) = length (futures w) + length (requests_of [a]).
Proof.
  intros Hsub Hlock Hts Hbt Hlen. destruct a as [req|t|t|t|f]; try done; cbn [act].
  - rewrite add_request_unlocked by done. bproj.
    unfold add_request_locked, entering. bproj. rewrite Hbt.
    cbn [requests_of length] in Hlen.
    rewrite (proj2 (Z.leb_gt _ _)) by (rewrite length_app; cbn [length]; lia).
    bproj. rewrite map_app, length_app. cbn [map fst length requests_of].
    by split_and!.
  - cbn [requests_of]. rewrite app_nil_r, Nat.add_0_r.
    destruct (Qle_bool (now w) t); by bproj.
Qed.

(** X18.  After a first request at time 0, as long as fewer than
    [batch_size] requests have been submitted, whenever they come, the
    batcher has one flush scheduled, for time [batch_window]: later
    requests neither restart nor delay it, and the pending list holds the
    requests in the order of their submission. *)
Theorem window_runs_from_first_request (B : Z) (W : Q)
    (request : list (string * option string)) (actions : list action) :
  forallb submission actions = true →
  (Z.of_nat (S (length (requests_of actions))) < B)%Z →
  tasks (run (Submit request :: actions) (start (__init__ B W))) = [Sleeping (0 + W)]
  ∧ _batch_task (batcher (run (Submit request :: actions) (start (__init__ B W)))) = Some 0
  ∧ map fst (pending_requests
               (batcher (run (Submit request :: actions) (start (__init__ B W)))))
    = request :: requests_of actions.
Proof.
  intros Hsub Hlen. cbn [run fold_left]. fold (run actions).
  assert (∀ w (wake : Q) done_so_far,
            lock w = None → tasks w = [Sleeping wake] → _batch_task (batcher w) = Some 0 →
            map fst (pending_requests (batcher w)) = done_so_far →
            (Z.of_nat (length done_so_far + length (requests_of actions))
             < batch_size (batcher w))%Z →
            tasks (run actions w) = [Sleeping wake]
            ∧ _batch_task (batcher (run actions w)) = Some 0
            ∧ map fst (pending_requests (batcher (run actions w)))
              = done_so_far ++ requests_of actions) as Hrun.
  { clear Hlen. induction actions as [|a actions IH];
      intros w wake done_so_far Hlock Hts Hbt Hmap Hlen.
    - cbn [run fold_left requests_of]. by rewrite app_nil_r.
    - cbn [forallb] in Hsub. apply andb_true_iff in Hsub as [Ha Hsub].
      assert (requests_of (a :: actions) = requests_of [a] ++ requests_of actions) as Hreq
        by (by destruct a).
      rewrite Hreq, length_app in Hlen.
      destruct (act_below_size a w wake Ha Hlock Hts Hbt) as (Hl & Ht & Hb & HB & Hm & _).
      { rewrite <- Hmap, length_map in Hlen. lia. }
      cbn [run fold_left]. fold (run actions).
      destruct (IH Hsub (act a w) wake (done_so_far ++ requests_of [a])) as (H1 & H2 & H3);
        try done.
      + by rewrite Hm, Hmap.
      + rewrite HB, length_app. lia.
      + rewrite Hreq, app_assoc. done. }
  assert (act (Submit request) (start (__init__ B W))
          = mk_loop (mk_batcher B W [(request, 0)] (Some 0) None)
                    [Pending] [Sleeping (0 + W)] 0 None) as Hfirst.
  { cbn [act]. rewrite add_request_unlocked by done.
    unfold add_request_locked, entering, start, __init__, create_task. bproj.
    cbn [app length]. rewrite (proj2 (Z.leb_gt _ _)) by lia. reflexivity. }
  rewrite Hfirst.
  destruct (Hrun (mk_loop (mk_batcher B W [(request, 0)] (Some 0) None)
                          [Pending] [Sleeping (0 + W)] 0 None) (0 + W)%Q [request])
    as (H1 & H2 & H3); try done.
Qed.

Lemma window_runs_from_first_request_witness :
  tasks (run [Submit (repo "https://h.example/1.git"); Tick (1 # 20);
              Submit (repo "https://h.example/2.git"); Tick (2 # 20);
              Submit (repo "https://h.example/3.git")]
             (start (__init__ 5 (1 # 10))))
  = [Sleeping (0 + (1 # 10))].
Proof.
  apply (window_runs_from_first_request 5 (1 # 10) (repo "https://h.example/1.git")
           [Tick (1 # 20); Submit (repo "https://h.example/2.git"); Tick (2 # 20);
            Submit (repo "https://h.example/3.git")]).
  - reflexivity.
  - cbn. lia.
Defined.

End BatcherExtra.

Module MetricsExtra.
Import MetricsOps.

Lemma run_app (ks1 ks2 : list call) (m : MetricsState) :
  run (ks1 ++ ks2) m = run ks2 (run ks1 m).
Proof. apply fold_left_app. Qed.

Lemma increments_of_app (metric : string) (ks1 ks2 : list call) :
  increments_of metric (ks1 ++ ks2) = increments_of metric ks1 ++ increments_of metric ks2.
Proof.
  induction ks1 as [|[metric' v|metric' d] ks1 IH]; cbn [app increments_of]; [done| |done].
  destruct (decide (metric' = metric)); [|done]. by rewrite IH.
Qed.

Lemma durations_of_app (metric : string) (ks1 ks2 : list call) :
  durations_of metric (ks1 ++ ks2) = durations_of metric ks1 ++ durations_of metric ks2.
Proof.
  induction ks1 as [|[metric' v|metric' d] ks1 IH]; cbn [app durations_of]; [done|done|].
  destruct (decide (metric' = metric)); [|done]. by rewrite IH.
Qed.

Lemma fold_right_Zplus_app (l1 l2 : list Z) :
  fold_right Z.add 0%Z (l1 ++ l2) = (fold_right Z.add 0%Z l1 + fold_right Z.add 0%Z l2)%Z.
Proof. induction l1 as [|x l1 IH]; cbn [app fold_right]; [done|]. rewrite IH. lia. Qed.

(** The counter and the samples of a name after a sequence of calls. *)
Lemma run_lookup (ks : list call) (metric : string) :
  counters (run ks __init__) !! metric
  = (if increments_of metric ks is [] then None
     else Some (fold_right Z.add 0%Z (increments_of metric ks)))
  ∧ timers (run ks __init__) !! metric
    = (if durations_of metric ks is [] then None else Some (durations_of metric ks)).
Proof.
  induction ks as [|k ks IH] using rev_ind; [done|].
  rewrite run_app, increments_of_app, durations_of_app. destruct IH as [IHc IHt].
  cbn [run fold_left]. destruct k as [metric' v|metric' d]; cbn [do_call].
  - cbn [increments_of durations_of]. rewrite app_nil_r.
    unfold increment. cbn [counters timers]. split; [|done].
    unfold Metrics.increment. destruct (decide (metric' = metric)) as [->|Hne].
    + rewrite lookup_insert_eq, IHc.
      destruct (increments_of metric ks) as [|x l] eqn:Hl.
      * cbn. f_equal. lia.
      * cbn [app default]. rewrite app_comm_cons, fold_right_Zplus_app. cbn. f_equal. lia.
    + rewrite lookup_insert_ne by done. by rewrite app_nil_r.
  - cbn [increments_of durations_of]. rewrite app_nil_r.
    unfold record_time. cbn [counters timers]. split; [done|].
    destruct (decide (metric' = metric)) as [->|Hne].
    + rewrite lookup_insert_eq, IHt.
      by destruct (durations_of metric ks).
    + rewrite lookup_insert_ne by done. by rewrite app_nil_r.
Qed.

(** X19.  After any sequence of [increment] and [record_time] calls on a
    new [Metrics] object, [get_metrics] reports for each name the sum of
    the values added to it, and no counter for a name never incremented;
    calls for other names, and their order, do not matter. *)
Theorem counters_sum_per_name (fadd : Q → Q → Q) (fdiv : Q → Z → Q)
    (ks : list call) (metric : string) :
  (get_metrics fadd fdiv (run ks __init__)).1 !! metric
  = if increments_of metric ks is [] then None
    else Some (fold_right Z.add 0%Z (increments_of metric ks)).
Proof. unfold get_metrics. cbn [fst]. apply run_lookup. Qed.

(** X20.  After any sequence of calls on a new [Metrics] object,
    [get_metrics] reports a timer for exactly the names with a recorded
    duration; its count is the number of durations recorded for the name
    and its average is taken over them, in the order recorded.  A timer is
    never reported with a count of 0. *)
Theorem timers_count_per_name (fadd : Q → Q → Q) (fdiv : Q → Z → Q)
    (ks : list call) (metric : string) :
  (get_metrics fadd fdiv (run ks __init__)).2 !! metric
  = (if durations_of metric ks is [] then None
     else Some (stats_of fadd fdiv (durations_of metric ks)))
  ∧ ∀ st, (get_metrics fadd fdiv (run ks __init__)).2 !! metric = Some st →
          count st = length (durations_of metric ks) ∧ 1 ≤ count st.
Proof.
  assert ((get_metrics fadd fdiv (run ks __init__)).2 !! metric
          = (if durations_of metric ks is [] then None
             else Some (stats_of fadd fdiv (durations_of metric ks)))) as Hlook.
  { unfold get_metrics. cbn [snd]. rewrite lookup_fmap.
    destruct (run_lookup ks metric) as [_ Ht].
    destruct (durations_of metric ks) as [|d ds] eqn:Hd.
    - rewrite map_lookup_filter_None_2; [done|]. by left.
    - erewrite map_lookup_filter_Some_2; [done|exact Ht|done]. }
  split; [exact Hlook|]. intros st. rewrite Hlook.
  destruct (durations_of metric ks) as [|d ds]; [done|].
  intros [= <-]. cbn. split; [done|lia].
Qed.

End MetricsExtra.

Module ValidationExtra.
Import Validation.

(** X21.  [validate_input] returns normally exactly when every key of
    [types] is in [data] with a value of the expected type; keys of
    [data] that [types] does not name are not looked at. *)
Theorem validate_input_accepts_iff (data : gmap string pyval)
    (types : list (string * pytype)) :
  validate_input data types = Returns ↔ Forall (field_ok data) types.
Proof.
  induction types as [|[key t] types IH]; cbn [validate_input].
  - split; [constructor|done].
  - destruct (data !! key) as [v|] eqn:Hk.
    + destruct (isinstance v t) eqn:Hi.
      * rewrite IH. split.
        -- intros Hall. constructor; [|done]. exists v. done.
        -- by intros [_ Hall]%Forall_cons.
      * split; [done|]. intros [(v' & Hv' & Hi') _]%Forall_cons. cbn in Hv', Hi'.
        rewrite Hk in Hv'. injection Hv' as <-. congruence.
    + split; [done|]. intros [(v' & Hv' & _) _]%Forall_cons. cbn in Hv'. congruence.
Qed.

(** X22.  The error of [validate_input] is decided by the first key of
    [types], in their order, that is missing or ill-typed: a missing key
    raises [ValueError] naming it, an ill-typed value raises [TypeError]
    naming the key and the expected class; later keys are not reported. *)
Theorem validate_input_first_error (data : gmap string pyval)
    (before after : list (string * pytype)) (key : string) (t : pytype) :
  Forall (field_ok data) before →
  (data !! key = None →
   validate_input data (before ++ (key, t) :: after)
   = RaisesValueError ("Missing required field: " ++ key))
  ∧ (∀ v, data !! key = Some v → isinstance v t = false →
     validate_input data (before ++ (key, t) :: after)
     = RaisesTypeError ("Field " ++ key ++ " must be of type " ++ __name__ t)).
Proof.
  intros Hok.
  assert (∀ rest, validate_input data (before ++ rest) = validate_input data rest) as Hskip.
  { intros rest. induction Hok as [|[k t0] before (v & Hv & Hi) _ IH]; [done|].
    cbn [app validate_input]. cbn in Hv, Hi. by rewrite Hv, Hi. }
  split.
  - intros Hk. rewrite Hskip. cbn [validate_input]. by rewrite Hk.
  - intros v Hk Hi. rewrite Hskip. cbn [validate_input]. by rewrite Hk, Hi.
Qed.

Lemma validate_input_first_error_witness :
  validate_input
    (<["timeout" := VInt 30]> (<["max_connections" := VStr "5"]>
       (<["db_path" := VStr "database/chat_history.db"]> ∅)))
    pool_types
  = RaisesTypeError "Field max_connections must be of type int".
Proof.
  destruct (validate_input_first_error
              (<["timeout" := VInt 30]> (<["max_connections" := VStr "5"]>
                 (<["db_path" := VStr "database/chat_history.db"]> ∅)))
              [("db_path", TStr)] [("timeout", TInt)] "max_connections" TInt) as [_ Hty].
  - constructor; [|constructor]. exists (VStr "database/chat_history.db"). done.
  - exact (Hty (VStr "5") eq_refl eq_refl).
Defined.

End ValidationExtra.

Module PoolConstructExtra.
Import Exceptions Pool PoolFacts PoolOps PoolOpsFacts Validation PoolConstruct.

Lemma do_call_without_capacity (k : call) (s : Sys) :
  (max_connections (pool_state s) ≤ 0)%Z →
  _connection_queue (pool_state s) = [] →
  _active_connections (pool_state s) = ∅ →
  checked_out s = [] →
  is_Some (_metrics (pool_state s) !! "timeouts") →
  (do_call k s).2 = Completed
  ∧ (max_connections (pool_state (do_call k s).1) ≤ 0)%Z
  ∧ _connection_queue (pool_state (do_call k s).1) = []
  ∧ _active_connections (pool_state (do_call k s).1) = ∅
  ∧ checked_out (do_call k s).1 = []
  ∧ is_Some (_metrics (pool_state (do_call k s).1) !! "timeouts").
Proof.
  intros Hmax Hq Ha Hco [x Hx]. destruct k as [env|c]; cbn [do_call].
  - destruct (get_connection_at_capacity env (pool_state s) x) as (s' & -> & Hq' & Ha' & Hm' & Hx');
      [done| rewrite Ha, size_empty; lia |done|].
    proj. split_and!; [done|lia|done|congruence|done|by eexists].
  - unfold return_connection. rewrite decide_False by (rewrite Ha; set_solver).
    proj. rewrite Hco. split_and!; [done|done|done|done|done|by eexists].
Qed.

(** X23.  A pool constructed with [max_connections <= 0] passes the
    validation of its constructor and never hands out a connection:
    whatever is called on it, no call blocks, no caller ever holds a
    connection, and a [get_connection] in any state reached raises
    [DatabaseError] "Maximum connections reached". *)
Theorem pool_without_capacity_hands_out_nothing
    (db_path : string) (max_connections timeout : Z) (ks : list call) (env : Env) :
  (max_connections ≤ 0)%Z →
  DatabasePool (VStr db_path) (VInt max_connections) (VInt timeout)
  = inl (Pool.__init__ max_connections timeout)
  ∧ length (run ks (init max_connections timeout)) = length ks
  ∧ Forall (λ s, checked_out s = []
                 ∧ (get_connection env (pool_state s)).2
                   = Raise (DatabaseError
                              "Failed to get connection: Maximum connections reached"))
           (init max_connections timeout :: run ks (init max_connections timeout)).
Proof.
  intros Hmax. split; [reflexivity|].
  assert (∀ s, (Pool.max_connections (pool_state s) ≤ 0)%Z →
               _connection_queue (pool_state s) = [] →
               _active_connections (pool_state s) = ∅ →
               checked_out s = [] →
               is_Some (_metrics (pool_state s) !! "timeouts") →
               length (run ks s) = length ks
               ∧ Forall (λ s, checked_out s = []
                   ∧ (get_connection env (pool_state s)).2
                     = Raise (DatabaseError
                                "Failed to get connection: Maximum connections reached"))
                   (s :: run ks s)) as Hgen.
  { induction ks as [|k ks IH]; intros s Hm Hq Ha Hco Hx.
    - split; [done|]. constructor; [|constructor]. split; [done|].
      destruct Hx as [x Hx].
      destruct (get_connection_at_capacity env (pool_state s) x) as (s' & -> & _);
        [done| rewrite Ha, size_empty; lia |done|done].
    - destruct (do_call_without_capacity k s Hm Hq Ha Hco Hx) as (Hc & Hm' & Hq' & Ha' & Hco' & Hx').
      cbn [run]. destruct (do_call k s) as [s1 p] eqn:Hk. cbn [fst snd] in *. subst p.
      destruct (IH s1 Hm' Hq' Ha' Hco' Hx') as [Hlen Hall].
      split; [cbn [length]; by rewrite Hlen|].
      constructor; [|done]. split; [done|].
      destruct Hx as [x Hx].
      destruct (get_connection_at_capacity env (pool_state s) x) as (s' & -> & _);
        [done| rewrite Ha, size_empty; lia |done|done]. }
  apply Hgen; unfold init, Pool.__init__; proj; done.
Qed.

Lemma pool_without_capacity_hands_out_nothing_witness :
  DatabasePool (VStr "database/chat_history.db") (VInt 0) (VInt 30)
  = inl (Pool.__init__ 0 30)
  ∧ length (run [Acquire healthy; Release 0; Acquire healthy] (init 0 30)) = 3.
Proof.
  destruct (pool_without_capacity_hands_out_nothing "database/chat_history.db" 0 30
              [Acquire healthy; Release 0; Acquire healthy] healthy) as (H1 & H2 & _);
    [lia|].
  split; [exact H1|exact H2].
Defined.

End PoolConstructExtra.

Module CacheExtra.
Import Cache.

(** X24.  What [set] stored is what [get] returns while the entry is
    fresh, whatever was stored under the key before; the cache is left as
    it is. *)
Theorem cache_set_get (fsub : Q → Q → Q) (dataset_id d : string) (stored now : Q)
    (c : RepositoryCache) :
  Qltb (fsub now stored) (inject_Z (_cache_duration c)) = true →
  get fsub dataset_id now (set dataset_id d stored c)
  = (set dataset_id d stored c, Some d).
Proof.
  intros Hfresh. unfold get, set, fresh. cbn [_cache _cache_duration].
  rewrite lookup_insert_eq. cbn [timestamp data]. by rewrite Hfresh.
Qed.

Lemma cache_set_get_witness :
  get Qminus "7c9e6679" 1299 (set "7c9e6679" "indexed" 1000 (__init__ 300))
  = (set "7c9e6679" "indexed" 1000 (__init__ 300), Some "indexed").
Proof. apply (cache_set_get Qminus). reflexivity. Defined.

(** X25.  A [get] that finds the entry expired returns [None] and deletes
    it: every later [get] of the key returns [None] too, whatever the
    clock reads then, until the key is set again. *)
Theorem cache_expired_entry_is_deleted (fsub : Q → Q → Q) (dataset_id : string)
    (now later : Q) (c : RepositoryCache) (e : entry) :
  _cache c !! dataset_id = Some e →
  Qltb (fsub now (timestamp e)) (inject_Z (_cache_duration c)) = false →
  (get fsub dataset_id now c).2 = None
  ∧ _cache (get fsub dataset_id now c).1 !! dataset_id = None
  ∧ (get fsub dataset_id later (get fsub dataset_id now c).1).2 = None.
Proof.
  intros He Hold. unfold get at 1 2 4, fresh. rewrite He, Hold. cbn [fst snd _cache].
  split_and!; [done|apply lookup_delete_eq|].
  unfold get. cbn [_cache]. by rewrite lookup_delete_eq.
Qed.

Lemma cache_expired_entry_is_deleted_witness :
  (get Qminus "7c9e6679" 1300 (set "7c9e6679" "indexed" 1000 (__init__ 300))).2 = None
  ∧ (get Qminus "7c9e6679" 1001
       (get Qminus "7c9e6679" 1300 (set "7c9e6679" "indexed" 1000 (__init__ 300))).1).2
    = None.
Proof.
  destruct (cache_expired_entry_is_deleted Qminus "7c9e6679" 1300 1001
              (set "7c9e6679" "indexed" 1000 (__init__ 300)) (mk_entry "indexed" 1000))
    as (H1 & _ & H3); [reflexivity|reflexivity|].
  split; [exact H1|exact H3].
Defined.

(** X26.  Setting, invalidating or getting one key does not change what
    the cache holds under another key, so a [get] of the other key
    answers as before. *)
Theorem cache_keys_are_independent (fsub : Q → Q → Q) (dataset_id other : string)
    (ch : change) (now : Q) (c : RepositoryCache) :
  dataset_id ≠ other →
  _cache (apply_change fsub dataset_id ch c) !! other = _cache c !! other
  ∧ (get fsub other now (apply_change fsub dataset_id ch c)).2 = (get fsub other now c).2.
Proof.
  intros Hne.
  assert (_cache (apply_change fsub dataset_id ch c) !! other = _cache c !! other
          ∧ _cache_duration (apply_change fsub dataset_id ch c) = _cache_duration c)
    as [Hlook Hdur].
  { destruct ch as [d t| |t]; cbn [apply_change].
    - unfold set. cbn [_cache _cache_duration]. by rewrite lookup_insert_ne.
    - unfold invalidate. cbn [_cache _cache_duration]. by rewrite lookup_delete_ne.
    - unfold get. destruct (_cache c !! dataset_id) as [e|]; [|done].
      destruct (fresh fsub t e c); [done|]. cbn [fst _cache _cache_duration].
      by rewrite lookup_delete_ne. }
  split; [done|]. unfold get, fresh. rewrite Hlook, Hdur.
  destruct (_cache c !! other) as [e|]; [|done].
  by destruct (Qltb _ _).
Qed.

Lemma cache_keys_are_independent_witness :
  (get Qminus "b" 1010 (apply_change Qminus "a" DoInvalidate
                          (set "b" "second" 1005 (set "a" "first" 1000 (__init__ 300))))).2
  = (get Qminus "b" 1010 (set "b" "second" 1005 (set "a" "first" 1000 (__init__ 300)))).2.
Proof.
  apply (cache_keys_are_independent Qminus "a" "b" DoInvalidate 1010). discriminate.
Defined.

(** X27.  After [invalidate] a [get] of the key returns [None] at any
    time, and invalidating a key the cache does not hold changes nothing
    and raises nothing; after [clear] every [get] returns [None]. *)
Theorem cache_invalidate_and_clear (fsub : Q → Q → Q) (dataset_id : string) (now : Q)
    (c : RepositoryCache) :
  (get fsub dataset_id now (invalidate dataset_id c)).2 = None
  ∧ (_cache c !! dataset_id = None → invalidate dataset_id c = c)
  ∧ (get fsub dataset_id now (clear c)).2 = None.
Proof.
  split_and!.
  - unfold get, invalidate. cbn [_cache]. by rewrite lookup_delete_eq.
  - intros Hnone. unfold invalidate. rewrite delete_id by done. by destruct c.
  - unfold get, clear. cbn [_cache]. by rewrite lookup_empty.
Qed.

End CacheExtra.

